(** * The request director of yt_dlp.networking

    A shallow embedding of [RequestDirector] (yt_dlp/networking/__init__.py):
    the handler registry ([add_handler], [remove_handler], [get_handlers],
    [replace_handler]), the merge of the process-wide defaults into a request
    ([_merge_ydl]) and the dispatch loop of [send] with its aggregated error.

    Python objects that the director mutates or compares by identity keep an
    explicit identity ([rh_id]); the caller's [Request] object is threaded
    through [send], which returns its contents after the call together with
    the sequence of handler calls and diagnostics the call produced. *)

From Stdlib Require Import List String Ascii Bool Arith Lia.
From Stdlib Require Import ZArith QArith_base DecimalString.
From Stdlib Require Import Sorted Permutation.
Import ListNotations.

Local Close Scope Q_scope.
Local Open Scope string_scope.
Local Open Scope list_scope.

(** ** Python values used by the director *)

(** The double quote character, which the diagnostics put around a handler
    name. *)
Definition dquote : string := String (ascii_of_nat 34) EmptyString.

(** [sep.join(parts)]. *)
Definition join (sep : string) (parts : list string) : string :=
  String.concat sep parts.

(** [str(n)] for the length of a list. *)
Definition str_of_nat (n : nat) : string :=
  NilZero.string_of_uint (Nat.to_uint n).

(** Truth value of a Python list: a list is false exactly when empty. *)
Definition list_truthy {A : Type} (l : list A) : bool :=
  match l with
  | [] => false
  | _ :: _ => true
  end.

(** [x or y] on optional values, for a given truth value of what is there:
    [x] when it is true, [y] otherwise ([None] is false). *)
Definition py_or {A : Type} (truthy : A -> bool) (x y : option A) : option A :=
  match x with
  | Some a => if truthy a then x else y
  | None => y
  end.

(** A timeout is a Python number (an int or a finite float) or [None]; the
    number is kept as a rational. A number is false exactly when it is zero. *)
Definition number : Type := Q.

Definition number_truthy (q : number) : bool := negb (Qeq_bool q (0 # 1)%Q).

(** *** Dictionaries

    A Python [dict] keeps its items in insertion order; assigning to a key
    that is present replaces the value where the key stands. *)
Module PyDict.

Definition t (V : Type) : Type := list (string * V).

Section Ops.
Context {V : Type}.

Fixpoint get (d : t V) (k : string) : option V :=
  match d with
  | [] => None
  | (k', v) :: d' => if String.eqb k' k then Some v else get d' k
  end.

(** [d[k] = v] *)
Fixpoint setitem (d : t V) (k : string) (v : V) : t V :=
  match d with
  | [] => [(k, v)]
  | (k', v') :: d' =>
      if String.eqb k' k then (k', v) :: d' else (k', v') :: setitem d' k v
  end.

Definition keys (d : t V) : list string := map fst d.

Definition items (d : t V) : list (string * V) := d.

Definition truthy (d : t V) : bool := list_truthy d.
End Ops.

(** [d.setdefault(k, []).append(x)] on a dictionary of lists. *)
Definition setdefault_append {A : Type} (d : t (list A)) (k : string) (x : A)
  : t (list A) :=
  match get d k with
  | Some l => setitem d k (l ++ [x])
  | None => setitem d k ([] ++ [x])
  end.

End PyDict.

(** *** Case-insensitive dictionaries *)

Definition lower_ascii (c : ascii) : ascii :=
  let n := nat_of_ascii c in
  if andb (65 <=? n)%nat (n <=? 90)%nat then ascii_of_nat (n + 32) else c.

Fixpoint casefold (s : string) : string :=
  match s with
  | EmptyString => EmptyString
  | String c s' => String (lower_ascii c) (casefold s')
  end.

(** Modelled from the spec: [CaseInsensitiveDict] of yt_dlp.utils, which is
    not among the sources. "Header multimap (case-insensitive keys)"; built
    from several dictionaries, "request-specific headers override on key
    collision, case-insensitively": every key is stored under its case-folded
    form, and the dictionaries are poured in from first to last, so a later
    one overrides an earlier one. *)
Module CaseInsensitiveDict.

Definition t : Type := PyDict.t string.

Definition setitem (d : t) (k v : string) : t :=
  PyDict.setitem d (casefold k) v.

Definition getitem (d : t) (k : string) : option string :=
  PyDict.get d (casefold k).

Definition update (d : t) (src : PyDict.t string) : t :=
  fold_left (fun acc kv => setitem acc (fst kv) (snd kv)) src d.

(** [CaseInsensitiveDict(a, b)] *)
Definition make (a b : PyDict.t string) : t :=
  update (update [] a) b.

End CaseInsensitiveDict.

(** What a plain dictionary holds for a key when case is ignored: the value
    of the last item, in iteration order, whose key differs from [k] in case
    only. *)
Fixpoint lookup_nocase (d : PyDict.t string) (k : string) : option string :=
  match d with
  | [] => None
  | (k', v) :: d' =>
      match lookup_nocase d' k with
      | Some w => Some w
      | None => if String.eqb (casefold k') (casefold k) then Some v else None
      end
  end.

(** ** Requests and the host object *)

(** Modelled from the spec: the [Request] class of yt_dlp.networking.request,
    which is not among the sources. "Fields: target URL, HTTP method, header
    multimap, optional body, timeout duration, optional proxy map keyed by
    URL scheme". *)
Record Request : Type := {
  url : string;
  method : option string;
  headers : PyDict.t string;
  data : option string;
  timeout : option number;
  proxies : option (PyDict.t string)
}.

(** [ydl.params], with the two keys the director reads ([None]: the key is
    absent), and [ydl.proxies]. *)
Record Params : Type := {
  http_headers : option (PyDict.t string);
  socket_timeout : option number
}.

Record YoutubeDL : Type := {
  params : Params;
  ydl_proxies : option (PyDict.t string)
}.

(** [d.get(key, default)] for an optional entry. *)
Definition get_default {A : Type} (entry : option A) (default : A) : A :=
  match entry with
  | Some a => a
  | None => default
  end.

(** ** Exceptions

    The classes of yt_dlp.networking.exceptions as the [except] clauses of
    [send] tell them apart: an [UnsupportedRequest], with its [msg] and the
    [RH_NAME] of the [handler] it refers back to; a [RequestError] that is not
    an [UnsupportedRequest]; any other [Exception]; and what is raised outside
    [Exception] (KeyboardInterrupt, SystemExit), which [except Exception] does
    not catch. *)
Record unsupported : Type := {
  msg : string;
  handler_RH_NAME : string
}.

Inductive exn : Type :=
| UnsupportedRequest (e : unsupported)
| RequestError (message : string)
| OtherException (type_name : string) (text : string)
| NonException (type_name : string) (text : string).

(** [type(e).__name__] *)
Definition type_name_of (e : exn) : string :=
  match e with
  | UnsupportedRequest _ => "UnsupportedRequest"
  | RequestError _ => "RequestError"
  | OtherException n _ => n
  | NonException n _ => n
  end.

(** [str(e)] *)
Definition str_of (e : exn) : string :=
  match e with
  | UnsupportedRequest u => msg u
  | RequestError m => m
  | OtherException _ t => t
  | NonException _ t => t
  end.

(** What a call gives back: a value, or a raised exception. *)
Inductive outcome (A : Type) : Type :=
| Return (a : A)
| Raise (e : exn).

Arguments Return {A} a.
Arguments Raise {A} e.

(** ** Handlers, the director and its registry *)

Section Director.

(** The prepared request that [Request.prepare] builds and the [Response] a
    handler returns belong to modules that are not among the sources; the
    director only passes them on. So does the text of
    [bug_reports_message()]. *)
Variable PreparedRequest : Type.
Variable Response : Type.
Variable prepare : Request -> PreparedRequest.
Variable bug_reports_message : string.

(** A [RequestHandler] instance: its identity as an object, its class, its
    [RH_NAME], and what [can_handle] and [handle] give on a prepared
    request. *)
Record RequestHandler : Type := {
  rh_id : nat;
  rh_class : string;
  RH_NAME : string;
  can_handle : PreparedRequest -> outcome unit;
  handle : PreparedRequest -> outcome Response
}.

Record RequestDirector : Type := {
  _handlers : list RequestHandler;
  ydl : YoutubeDL
}.

Definition __init__ (ydl : YoutubeDL) : RequestDirector :=
  {| _handlers := []; ydl := ydl |}.

(** [a is b] on handler instances. *)
Definition is_ (a b : RequestHandler) : bool := Nat.eqb (rh_id a) (rh_id b).

(** [handler in handlers]: some element is the same object (the handlers
    define no equality of their own). *)
Definition contains (handlers : list RequestHandler) (handler : RequestHandler)
  : bool :=
  existsb (fun h => is_ h handler) handlers.

Definition add_handler (self : RequestDirector) (handler : RequestHandler)
  : RequestDirector :=
  if negb (contains (_handlers self) handler)
  then {| _handlers := _handlers self ++ [handler]; ydl := ydl self |}
  else self.

(** The argument of [remove_handler] and [get_handlers]: a handler class or
    a handler instance. *)
Inductive handler_key : Type :=
| a_class (c : string)
| an_instance (h : RequestHandler).

(** [type(h) == handler or h is handler] *)
Definition matches (handler : handler_key) (h : RequestHandler) : bool :=
  orb (match handler with
       | a_class c => String.eqb (rh_class h) c
       | an_instance _ => false
       end)
      (match handler with
       | a_class _ => false
       | an_instance g => is_ h g
       end).

Definition remove_handler (self : RequestDirector) (handler : handler_key)
  : RequestDirector :=
  {| _handlers := filter (fun h => negb (matches handler h)) (_handlers self);
     ydl := ydl self |}.

Definition get_handlers (self : RequestDirector) (handler : handler_key)
  : list RequestHandler :=
  filter (fun h => matches handler h) (_handlers self).

Definition replace_handler (self : RequestDirector) (handler : RequestHandler)
  : RequestDirector :=
  add_handler (remove_handler self (an_instance handler)) handler.

(** The states of the registry that the operations can produce. *)
Inductive reachable : RequestDirector -> Prop :=
| reach_init : forall y, reachable (__init__ y)
| reach_add : forall d h, reachable d -> reachable (add_handler d h)
| reach_remove : forall d k, reachable d -> reachable (remove_handler d k)
| reach_replace : forall d h, reachable d -> reachable (replace_handler d h).

(** ** Merging the defaults *)

(** [_merge_ydl] assigns three attributes of the request it is given and
    returns that same object: the result is the new contents of the caller's
    request. *)
Definition _merge_ydl (self : RequestDirector) (request : Request) : Request :=
  let headers' :=
    CaseInsensitiveDict.make
      (get_default (http_headers (params (ydl self))) [])
      (headers request) in
  let timeout' :=
    py_or number_truthy (timeout request) (socket_timeout (params (ydl self))) in
  let proxies' :=
    py_or PyDict.truthy (proxies request) (ydl_proxies (ydl self)) in
  {| url := url request;
     method := method request;
     headers := headers';
     data := data request;
     timeout := timeout';
     proxies := proxies' |}.

(** ** Dispatch *)

(** What a call of [send] does that can be seen from outside, besides what it
    returns or raises: the diagnostics handed to the host ([to_debugtraffic],
    and [report_error] with its [is_error] flag) and the calls made on
    handlers, in the order in which they happen. *)
Inductive event : Type :=
| to_debugtraffic (message : string)
| report_error (message : string) (is_error : bool)
| called_can_handle (h : RequestHandler)
| called_handle (h : RequestHandler).

(** The local variables of [send] that the loop updates, and the events so
    far. *)
Record locals : Type := {
  unexpected_errors : list exn;
  unsupported_errors : list unsupported;
  trace : list event
}.

Definition forwarding_message (handler : RequestHandler) : string :=
  "Forwarding request to " ++ dquote ++ RH_NAME handler ++ dquote
  ++ " request handler".

Definition cannot_handle_message (handler : RequestHandler) (e : exn) : string :=
  dquote ++ RH_NAME handler ++ dquote
  ++ " request handler cannot handle this request, trying another handler... (cause: "
  ++ type_name_of e ++ ":" ++ str_of e ++ ")".

Definition unexpected_message (handler : RequestHandler) (e : exn) : string :=
  "Unexpected error from " ++ dquote ++ RH_NAME handler ++ dquote
  ++ " request handler: " ++ type_name_of e ++ ":" ++ str_of e
  ++ bug_reports_message.

(** The body of the [try]: the debug line, [can_handle], then [handle] when
    [can_handle] returned. Gives what the body ends with (the response bound
    by the assignment, or the exception raised) and the events it made. *)
Definition try_body (handler : RequestHandler) (prepared_request : PreparedRequest)
  : outcome Response * list event :=
  let debug := to_debugtraffic (forwarding_message handler) in
  match can_handle handler prepared_request with
  | Raise e => (Raise e, [debug; called_can_handle handler])
  | Return _ =>
      (handle handler prepared_request,
       [debug; called_can_handle handler; called_handle handler])
  end.

(** One turn of the [for] loop. [None]: [continue]; [Some out]: the loop is
    left, by [return response] or by an exception that goes out of [send]. *)
Definition iteration (handler : RequestHandler) (prepared_request : PreparedRequest)
    (st : locals) : option (outcome Response) * locals :=
  let (body, events) := try_body handler prepared_request in
  let st := {| unexpected_errors := unexpected_errors st;
               unsupported_errors := unsupported_errors st;
               trace := trace st ++ events |} in
  match body with
  | Raise (UnsupportedRequest e) =>
      (None,
       {| unexpected_errors := unexpected_errors st;
          unsupported_errors := unsupported_errors st ++ [e];
          trace := trace st
            ++ [to_debugtraffic
                  (cannot_handle_message handler (UnsupportedRequest e))] |})
  | Raise (RequestError m) => (Some (Raise (RequestError m)), st)
  | Raise (OtherException n t) =>
      (None,
       {| unexpected_errors := unexpected_errors st ++ [OtherException n t];
          unsupported_errors := unsupported_errors st;
          trace := trace st
            ++ [report_error
                  (unexpected_message handler (OtherException n t)) false] |})
  | Raise (NonException n t) => (Some (Raise (NonException n t)), st)
  | Return response => (Some (Return response), st)
  end.

(** [for handler in handlers: ...] *)
Fixpoint for_each (handlers : list RequestHandler)
    (prepared_request : PreparedRequest) (st : locals)
  : option (outcome Response) * locals :=
  match handlers with
  | [] => (None, st)
  | handler :: rest =>
      match iteration handler prepared_request st with
      | (Some out, st') => (Some out, st')
      | (None, st') => for_each rest prepared_request st'
      end
  end.

(** The dictionary from reason text to handler names built after the loop. *)
Definition err_handler_map (unsupported_errors : list unsupported)
  : PyDict.t (list string) :=
  fold_left
    (fun m err => PyDict.setdefault_append m (msg err) (handler_RH_NAME err))
    unsupported_errors [].

Definition reason_text (item : string * list string) : string :=
  fst item ++ " (" ++ join ", " (snd item) ++ ")".

Definition unexpected_count_text (unexpected_errors : list exn) : string :=
  str_of_nat (List.length unexpected_errors) ++ " unexpected error(s)".

Definition reasons_of (unexpected_errors : list exn)
    (unsupported_errors : list unsupported) : list string :=
  let reasons :=
    map reason_text (PyDict.items (err_handler_map unsupported_errors)) in
  if list_truthy unexpected_errors
  then reasons ++ [unexpected_count_text unexpected_errors]
  else reasons.

(** The text of the error raised when the loop ends without a response. *)
Definition err_str_of (reasons : list string) : string :=
  let err_str := "Unable to handle request" in
  if list_truthy reasons
  then err_str ++ ", possible reason(s): " ++ join ", " reasons
  else err_str.

(** A finished call of [send]: what it returned or raised, the contents of
    the caller's request object afterwards, and the events of the call. *)
Record sent : Type := {
  returned : outcome Response;
  request_after : Request;
  events_of : list event
}.

Definition start : locals :=
  {| unexpected_errors := []; unsupported_errors := []; trace := [] |}.

(** After the loop: the response or exception that left it, or the
    aggregated [RequestError]. *)
Definition conclude (request : Request) (r : option (outcome Response) * locals)
  : sent :=
  match r with
  | (Some out, st) =>
      {| returned := out; request_after := request; events_of := trace st |}
  | (None, st) =>
      {| returned :=
           Raise (RequestError
                    (err_str_of (reasons_of (unexpected_errors st)
                                            (unsupported_errors st))));
         request_after := request;
         events_of := trace st |}
  end.

Definition send (self : RequestDirector) (request : Request) : sent :=
  if Nat.eqb (List.length (_handlers self)) 0
  then {| returned := Raise (RequestError "No request handlers configured");
          request_after := request;
          events_of := [] |}
  else
    let request := _merge_ydl self request in
    let prepared_request := prepare request in
    conclude request (for_each (rev (_handlers self)) prepared_request start).

(** *** Notions used to state the properties of [send] *)

(** What the [try] body of a handler ends with. *)
Definition attempt (prepared_request : PreparedRequest) (h : RequestHandler)
  : outcome Response :=
  fst (try_body h prepared_request).

(** A handler declines or faults: its [try] body raises [UnsupportedRequest]
    or an [Exception] that is not a [RequestError]. *)
Definition falls_through (prepared_request : PreparedRequest)
    (h : RequestHandler) : bool :=
  match attempt prepared_request h with
  | Raise (UnsupportedRequest _) => true
  | Raise (OtherException _ _) => true
  | _ => false
  end.

(** A handler accepts the request and handles it: the response, if so. *)
Definition serves (prepared_request : PreparedRequest) (h : RequestHandler)
  : option Response :=
  match can_handle h prepared_request with
  | Return _ =>
      match handle h prepared_request with
      | Return response => Some response
      | Raise _ => None
      end
  | Raise _ => None
  end.

(** The response of the first handler of a list that serves the request. *)
Fixpoint first_served (prepared_request : PreparedRequest)
    (handlers : list RequestHandler) : option Response :=
  match handlers with
  | [] => None
  | h :: rest =>
      match serves prepared_request h with
      | Some response => Some response
      | None => first_served prepared_request rest
      end
  end.

(** The handler calls among some events. *)
Definition is_call (ev : event) : bool :=
  match ev with
  | called_can_handle _ | called_handle _ => true
  | _ => false
  end.

Definition calls (events : list event) : list event := filter is_call events.

(** The declinations and the faults of handlers that all fall through, in
    the order of the walk. *)
Definition declination (prepared_request : PreparedRequest) (h : RequestHandler)
  : list unsupported :=
  match attempt prepared_request h with
  | Raise (UnsupportedRequest e) => [e]
  | _ => []
  end.

Definition fault (prepared_request : PreparedRequest) (h : RequestHandler)
  : list exn :=
  match attempt prepared_request h with
  | Raise (OtherException n t) => [OtherException n t]
  | _ => []
  end.

(** The grouping of declinations the specification asks for, written without
    a dictionary: the distinct reason texts in the order in which they first
    occur, each with the names of all the handlers that gave it. *)
Fixpoint distinct (l : list string) : list string :=
  match l with
  | [] => []
  | x :: l' => x :: filter (fun y => negb (String.eqb y x)) (distinct l')
  end.

Definition names_for (reason : string) (errs : list unsupported) : list string :=
  map handler_RH_NAME (filter (fun e => String.eqb (msg e) reason) errs).

Definition grouped (errs : list unsupported) : list (string * list string) :=
  map (fun reason => (reason, names_for reason errs)) (distinct (map msg errs)).

(** The handler calls that the [try] body of a handler makes. *)
Definition body_calls (prepared_request : PreparedRequest) (h : RequestHandler)
  : list event :=
  calls (snd (try_body h prepared_request)).

(** A handler declines with the given reason text. *)
Definition declines_with (prepared_request : PreparedRequest) (reason : string)
    (h : RequestHandler) : bool :=
  match attempt prepared_request h with
  | Raise (UnsupportedRequest e) => String.eqb (msg e) reason
  | _ => false
  end.

(** A handler faults: its [try] body raises an unexpected [Exception]. *)
Definition faulted (prepared_request : PreparedRequest) (h : RequestHandler)
  : bool :=
  match attempt prepared_request h with
  | Raise (OtherException _ _) => true
  | _ => false
  end.

(** The identities of the registered handlers, in registry order. *)
Definition ids (self : RequestDirector) : list nat :=
  map rh_id (_handlers self).

End Director.

Arguments rh_id {PreparedRequest Response} _.
Arguments rh_class {PreparedRequest Response} _.
Arguments RH_NAME {PreparedRequest Response} _.
Arguments can_handle {PreparedRequest Response} _ _.
Arguments handle {PreparedRequest Response} _ _.
Arguments _handlers {PreparedRequest Response} _.
Arguments ydl {PreparedRequest Response} _.
Arguments __init__ {PreparedRequest Response} ydl.
Arguments is_ {PreparedRequest Response} a b.
Arguments contains {PreparedRequest Response} handlers handler.
Arguments add_handler {PreparedRequest Response} self handler.
Arguments a_class {PreparedRequest Response} c.
Arguments an_instance {PreparedRequest Response} h.
Arguments matches {PreparedRequest Response} handler h.
Arguments remove_handler {PreparedRequest Response} self handler.
Arguments get_handlers {PreparedRequest Response} self handler.
Arguments replace_handler {PreparedRequest Response} self handler.
Arguments reachable {PreparedRequest Response} _.
Arguments _merge_ydl {PreparedRequest Response} self request.
Arguments to_debugtraffic {PreparedRequest Response} message.
Arguments report_error {PreparedRequest Response} message is_error.
Arguments called_can_handle {PreparedRequest Response} h.
Arguments called_handle {PreparedRequest Response} h.
Arguments unexpected_errors {PreparedRequest Response} _.
Arguments unsupported_errors {PreparedRequest Response} _.
Arguments trace {PreparedRequest Response} _.
Arguments forwarding_message {PreparedRequest Response} handler.
Arguments cannot_handle_message {PreparedRequest Response} handler e.
Arguments unexpected_message {PreparedRequest Response} bug_reports_message handler e.
Arguments try_body {PreparedRequest Response} handler prepared_request.
Arguments iteration {PreparedRequest Response} bug_reports_message handler prepared_request st.
Arguments for_each {PreparedRequest Response} bug_reports_message handlers prepared_request st.
Arguments returned {PreparedRequest Response} _.
Arguments request_after {PreparedRequest Response} _.
Arguments events_of {PreparedRequest Response} _.
Arguments start {PreparedRequest Response}.
Arguments conclude {PreparedRequest Response} request r.
Arguments send {PreparedRequest Response} prepare bug_reports_message self request.
Arguments attempt {PreparedRequest Response} prepared_request h.
Arguments falls_through {PreparedRequest Response} prepared_request h.
Arguments serves {PreparedRequest Response} prepared_request h.
Arguments first_served {PreparedRequest Response} prepared_request handlers.
Arguments is_call {PreparedRequest Response} ev.
Arguments calls {PreparedRequest Response} events.
Arguments declination {PreparedRequest Response} prepared_request h.
Arguments fault {PreparedRequest Response} prepared_request h.
Arguments body_calls {PreparedRequest Response} prepared_request h.
Arguments declines_with {PreparedRequest Response} prepared_request reason h.
Arguments ids {PreparedRequest Response} self.
Arguments faulted {PreparedRequest Response} prepared_request h.

(** ** Sample objects

    A host, a request and a few handlers, on which the statements below are
    run. The prepared request is the request itself and a response is a
    text. *)
Module Samples.

Definition host : YoutubeDL :=
  {| params := {| http_headers := Some [("User-Agent", "yt-dlp"); ("Accept", "*/*")];
                  socket_timeout := Some (20 # 1)%Q |};
     ydl_proxies := Some [("http", "http://proxy:3128")] |}.

Definition plain : Request :=
  {| url := "http://x"; method := None;
     headers := [("user-agent", "mine")]; data := None;
     timeout := None; proxies := None |}.

Definition handler : Type := RequestHandler Request string.

(** Declines every request, with the given reason. *)
Definition declining (id : nat) (name reason : string) : handler :=
  {| rh_id := id; rh_class := name ++ "RH"; RH_NAME := name;
     can_handle := fun _ =>
       Raise (UnsupportedRequest {| msg := reason; handler_RH_NAME := name |});
     handle := fun _ => Return "never" |}.

(** Accepts every request and returns a response. *)
Definition serving (id : nat) (name response : string) : handler :=
  {| rh_id := id; rh_class := name ++ "RH"; RH_NAME := name;
     can_handle := fun _ => Return tt;
     handle := fun _ => Return response |}.

(** Accepts every request; [handle] then raises the given exception. *)
Definition raising (id : nat) (name : string) (e : exn) : handler :=
  {| rh_id := id; rh_class := name ++ "RH"; RH_NAME := name;
     can_handle := fun _ => Return tt;
     handle := fun _ => Raise e |}.

Definition director (handlers : list handler) : RequestDirector Request string :=
  {| _handlers := handlers; ydl := host |}.

Definition send' (handlers : list handler) (request : Request) : sent Request string :=
  send (fun r => r) "" (director handlers) request.

(** The request as [send] hands it to the handlers. *)
Definition merged (request : Request) : Request :=
  _merge_ydl (director []) request.

(** A request whose timeout is set to zero. *)
Definition zero_timeout : Request :=
  {| url := "http://x"; method := None;
     headers := []; data := None;
     timeout := Some (0 # 1)%Q; proxies := None |}.

Definition A : handler := declining 1 "A" "no".
Definition B : handler := serving 2 "B" "from B".
Definition C : handler := declining 3 "C" "no".
Definition D : handler := declining 4 "D" "other".
Definition E : handler := raising 5 "E" (RequestError "boom").
Definition F : handler := raising 6 "F" (OtherException "ValueError" "bad").
Definition K : handler := raising 7 "K" (NonException "KeyboardInterrupt" "").
Definition L : handler :=
  raising 8 "L" (UnsupportedRequest {| msg := "late"; handler_RH_NAME := "L" |}).

(** [A] was added, then [B]. *)
Definition registered : RequestDirector Request string :=
  add_handler (add_handler (__init__ host) A) B.

End Samples.

(** ** Closing the director *)

Section Close.

Variable PreparedRequest : Type.
Variable Response : Type.

(** What [handler.close()] gives for each handler; the method belongs to the
    [RequestHandler] class, which is not among the sources. *)
Variable close_handler : RequestHandler PreparedRequest Response -> outcome unit.

(** [for handler in handlers: handler.close()]: what the loop ends with, and
    the handlers on which [close] was called, in order. *)
Fixpoint close_each (handlers : list (RequestHandler PreparedRequest Response))
  : outcome unit * list (RequestHandler PreparedRequest Response) :=
  match handlers with
  | [] => (Return tt, [])
  | handler :: rest =>
      match close_handler handler with
      | Raise e => (Raise e, [handler])
      | Return _ =>
          let (r, called) := close_each rest in (r, handler :: called)
      end
  end.

Definition close (self : RequestDirector PreparedRequest Response)
  : outcome unit * list (RequestHandler PreparedRequest Response) :=
  close_each (_handlers self).

End Close.

Arguments close_each {PreparedRequest Response} close_handler handlers.
Arguments close {PreparedRequest Response} close_handler self.

(** ** The handler classes of the module

    [get_request_handler] and [list_request_handler_classes] read the
    module's [globals()]: a dictionary from names to objects, of which only
    the [RH_NAME] attribute is read, when the object has one. Strings are
    byte strings: [lower()] acts on the ASCII letters and strings compare
    byte by byte. *)
Module Catalog.

Record value : Type := {
  value_id : nat;
  RH_NAME : option string
}.

Inductive error : Type :=
| KeyError (key : string)
| AttributeError (attribute : string).

Inductive result (A : Type) : Type :=
| Ok (a : A)
| Err (e : error).

Arguments Ok {A} a.
Arguments Err {A} e.

(** [s.endswith(suffix)]: some tail of [s] is [suffix]. *)
Fixpoint endswith (s suffix : string) : bool :=
  if String.eqb s suffix then true
  else
    match s with
    | EmptyString => false
    | String _ s' => endswith s' suffix
    end.

(** [globals()[key + 'RH']] *)
Definition get_request_handler (globals : PyDict.t value) (key : string)
  : result value :=
  match PyDict.get globals (key ++ "RH") with
  | Some rh => Ok rh
  | None => Err (KeyError (key ++ "RH"))
  end.

(** [x.RH_NAME.lower()] *)
Definition sort_key (x : value) : result string :=
  match RH_NAME x with
  | Some name => Ok (casefold name)
  | None => Err (AttributeError "RH_NAME")
  end.

(** [sorted(xs, key=...)] computes the key of every element, in order, and
    then sorts stably by the keys: elements with equal keys keep their
    order. *)
Fixpoint keyed (xs : list value) : result (list (string * value)) :=
  match xs with
  | [] => Ok []
  | x :: rest =>
      match sort_key x with
      | Err e => Err e
      | Ok k =>
          match keyed rest with
          | Err e => Err e
          | Ok l => Ok ((k, x) :: l)
          end
      end
  end.

Fixpoint insert (kx : string * value) (l : list (string * value))
  : list (string * value) :=
  match l with
  | [] => [kx]
  | ky :: l' =>
      if String.leb (fst kx) (fst ky) then kx :: ky :: l'
      else ky :: insert kx l'
  end.

Fixpoint sort_keyed (l : list (string * value)) : list (string * value) :=
  match l with
  | [] => []
  | kx :: l' => insert kx (sort_keyed l')
  end.

Definition sorted_by_key (xs : list value) : result (list value) :=
  match keyed xs with
  | Err e => Err e
  | Ok l => Ok (map snd (sort_keyed l))
  end.

(** The objects whose name ends with [RH], in the order of the module. *)
Definition candidates (globals : PyDict.t value) : list value :=
  map snd
    (filter (fun item => endswith (fst item) "RH") (PyDict.items globals)).

Definition list_request_handler_classes (globals : PyDict.t value)
  : result (list value) :=
  sorted_by_key (candidates globals).

(** The key under which a listed object is sorted. *)
Definition key_of (x : value) : string :=
  match RH_NAME x with
  | Some name => casefold name
  | None => EmptyString
  end.

End Catalog.

(** ** More sample objects *)
Module MoreSamples.

(** [close()] fails on the handler with identity 3. *)
Definition closing (h : Samples.handler) : outcome unit :=
  if Nat.eqb (rh_id h) 3 then Raise (OtherException "OSError" "closed")
  else Return tt.

Definition never_failing (h : Samples.handler) : outcome unit := Return tt.

(** A handler whose [can_handle] raises an unexpected exception. *)
Definition G : Samples.handler :=
  {| rh_id := 9; rh_class := "GRH"; RH_NAME := "G";
     can_handle := fun _ => Raise (OtherException "TypeError" "oops");
     handle := fun _ => Return "never" |}.

Definition Urllib : Catalog.value :=
  {| Catalog.value_id := 1; Catalog.RH_NAME := Some "Urllib" |}.
Definition Requests : Catalog.value :=
  {| Catalog.value_id := 2; Catalog.RH_NAME := Some "requests" |}.
Definition Curl : Catalog.value :=
  {| Catalog.value_id := 3; Catalog.RH_NAME := Some "CurlCFFI" |}.
Definition other : Catalog.value :=
  {| Catalog.value_id := 4; Catalog.RH_NAME := None |}.

Definition module_globals : PyDict.t Catalog.value :=
  [("urllib", other); ("UrllibRH", Urllib); ("RequestHandler", other);
   ("RequestsRH", Requests); ("CurlCFFIRH", Curl); ("RequestDirector", other)].

End MoreSamples.

(** * Properties *)

(** ** Dictionaries *)

Lemma get_setitem {V : Type} (d : PyDict.t V) (k k' : string) (v : V) :
  PyDict.get (PyDict.setitem d k v) k' =
  if String.eqb k k' then Some v else PyDict.get d k'.
Proof.
  induction d as [|[k0 v0] d IH]; simpl.
  - reflexivity.
  - destruct (String.eqb k0 k) eqn:E0; simpl.
    + apply String.eqb_eq in E0; subst k0.
      destruct (String.eqb k k'); reflexivity.
    + destruct (String.eqb k0 k') eqn:E1.
      * apply String.eqb_eq in E1; subst k0.
        rewrite String.eqb_sym, E0. reflexivity.
      * exact IH.
Qed.

Lemma getitem_update (src : PyDict.t string) :
  forall (d : CaseInsensitiveDict.t) (k : string),
    CaseInsensitiveDict.getitem (CaseInsensitiveDict.update d src) k =
    match lookup_nocase src k with
    | Some v => Some v
    | None => CaseInsensitiveDict.getitem d k
    end.
Proof.
  unfold CaseInsensitiveDict.update.
  induction src as [|[k0 v0] src IH]; intros d k; simpl.
  - reflexivity.
  - rewrite IH. destruct (lookup_nocase src k); [reflexivity|].
    unfold CaseInsensitiveDict.getitem, CaseInsensitiveDict.setitem; simpl.
    rewrite get_setitem.
    destruct (String.eqb (casefold k0) (casefold k)); reflexivity.
Qed.

Lemma getitem_make (a b : PyDict.t string) (k : string) :
  CaseInsensitiveDict.getitem (CaseInsensitiveDict.make a b) k =
  match lookup_nocase b k with
  | Some v => Some v
  | None => lookup_nocase a k
  end.
Proof.
  unfold CaseInsensitiveDict.make.
  rewrite !getitem_update.
  destruct (lookup_nocase b k); [reflexivity|].
  destruct (lookup_nocase a k); reflexivity.
Qed.

Section DirectorProofs.

Variable PreparedRequest : Type.
Variable Response : Type.
Variable prepare : Request -> PreparedRequest.
Variable bug_reports_message : string.

(** ** The registry *)

Lemma contains_In (handlers : list (RequestHandler PreparedRequest Response)) (h : RequestHandler PreparedRequest Response) :
  contains handlers h = true <-> In (rh_id h) (map rh_id handlers).
Proof.
  unfold contains, is_. rewrite existsb_exists, in_map_iff. split.
  - intros [g [Hin Heq]]. apply Nat.eqb_eq in Heq. eauto.
  - intros [g [Heq Hin]]. exists g. split; [exact Hin|].
    apply Nat.eqb_eq. exact Heq.
Qed.

Lemma contains_not_In (handlers : list (RequestHandler PreparedRequest Response)) (h : RequestHandler PreparedRequest Response) :
  contains handlers h = false <-> ~ In (rh_id h) (map rh_id handlers).
Proof.
  rewrite <- contains_In. destruct (contains handlers h); split; intro H.
  - discriminate.
  - exfalso. apply H. reflexivity.
  - discriminate.
  - reflexivity.
Qed.

Lemma NoDup_ids_snoc (handlers : list (RequestHandler PreparedRequest Response)) (h : RequestHandler PreparedRequest Response) :
  NoDup (map rh_id handlers) ->
  ~ In (rh_id h) (map rh_id handlers) ->
  NoDup (map rh_id (handlers ++ [h])).
Proof.
  induction handlers as [|g handlers IH]; simpl; intros Hnd Hnin.
  - constructor; [intros []|constructor].
  - inversion Hnd as [|? ? Hg Hrest]; subst. constructor.
    + rewrite map_app, in_app_iff. simpl. intros [Hin|[Heq|[]]].
      * exact (Hg Hin).
      * apply Hnin. left. symmetry. exact Heq.
    + apply IH; [exact Hrest|]. intro Hin. apply Hnin. right. exact Hin.
Qed.

Lemma NoDup_ids_filter (keep : RequestHandler PreparedRequest Response -> bool) (handlers : list (RequestHandler PreparedRequest Response)) :
  NoDup (map rh_id handlers) -> NoDup (map rh_id (filter keep handlers)).
Proof.
  induction handlers as [|g handlers IH]; simpl; intro Hnd.
  - constructor.
  - inversion Hnd as [|? ? Hg Hrest]; subst.
    destruct (keep g); simpl; [|exact (IH Hrest)].
    constructor; [|exact (IH Hrest)].
    intro Hin. apply Hg. apply in_map_iff in Hin.
    destruct Hin as [x [Heq Hx]]. apply filter_In in Hx.
    apply in_map_iff. exists x. tauto.
Qed.

Lemma add_handler_NoDup (d : RequestDirector PreparedRequest Response) (h : RequestHandler PreparedRequest Response) :
  NoDup (ids d) -> NoDup (ids (add_handler d h)).
Proof.
  unfold ids, add_handler. intro Hnd.
  destruct (contains (_handlers d) h) eqn:E; simpl; [exact Hnd|].
  apply NoDup_ids_snoc; [exact Hnd|]. apply contains_not_In. exact E.
Qed.

Lemma remove_handler_NoDup (d : RequestDirector PreparedRequest Response) (k : handler_key PreparedRequest Response) :
  NoDup (ids d) -> NoDup (ids (remove_handler d k)).
Proof.
  unfold ids, remove_handler. simpl. apply NoDup_ids_filter.
Qed.

Lemma reachable_NoDup (d : RequestDirector PreparedRequest Response) : reachable d -> NoDup (ids d).
Proof.
  induction 1.
  - constructor.
  - apply add_handler_NoDup. assumption.
  - apply remove_handler_NoDup. assumption.
  - unfold replace_handler. apply add_handler_NoDup, remove_handler_NoDup.
    assumption.
Qed.

(** C8. A registry built by the director's operations never holds the same
    handler instance twice. [add_handler h] appends [h] when no registered
    handler is that instance, and otherwise leaves the director as it is, [h]
    staying where it stands. *)
Theorem add_handler_at_most_once (d : RequestDirector PreparedRequest Response) (h : RequestHandler PreparedRequest Response) :
  reachable d ->
  NoDup (ids d)
  /\ NoDup (ids (add_handler d h))
  /\ (In (rh_id h) (ids d) -> add_handler d h = d)
  /\ (~ In (rh_id h) (ids d) ->
      _handlers (add_handler d h) = _handlers d ++ [h]).
Proof.
  intro Hreach. pose proof (reachable_NoDup d Hreach) as Hnd.
  split; [exact Hnd|]. split; [apply add_handler_NoDup; exact Hnd|]. split.
  - intro Hin. apply contains_In in Hin. unfold add_handler. rewrite Hin.
    reflexivity.
  - intro Hnin. apply contains_not_In in Hnin. unfold add_handler.
    rewrite Hnin. reflexivity.
Qed.

Lemma filter_not_is_absent (handlers : list (RequestHandler PreparedRequest Response)) (h : RequestHandler PreparedRequest Response) :
  ~ In (rh_id h) (map rh_id (filter (fun g => negb (is_ g h)) handlers)).
Proof.
  intro Hin. apply in_map_iff in Hin. destruct Hin as [g [Heq Hg]].
  apply filter_In in Hg. destruct Hg as [_ Hneg].
  unfold is_ in Hneg. rewrite Heq, Nat.eqb_refl in Hneg. discriminate.
Qed.

Lemma count_occ_absent (l : list nat) (n : nat) :
  ~ In n l -> count_occ Nat.eq_dec (l ++ [n]) n = 1.
Proof.
  intro Hnin. rewrite count_occ_app. simpl.
  destruct (Nat.eq_dec n n) as [_|Hne]; [|contradiction].
  apply (count_occ_not_In Nat.eq_dec) in Hnin. rewrite Hnin. reflexivity.
Qed.

(** C9. [replace_handler h] is [remove_handler h] followed by
    [add_handler h]. Whatever the registry held, afterwards the other
    handlers stand in their former order, followed by [h] in the last slot,
    the one [send] tries first, and [h] is registered exactly once. *)
Theorem replace_handler_moves_last (d : RequestDirector PreparedRequest Response) (h : RequestHandler PreparedRequest Response) :
  replace_handler d h = add_handler (remove_handler d (an_instance h)) h
  /\ _handlers (replace_handler d h) =
       filter (fun g => negb (is_ g h)) (_handlers d) ++ [h]
  /\ rev (_handlers (replace_handler d h)) =
       h :: rev (filter (fun g => negb (is_ g h)) (_handlers d))
  /\ count_occ Nat.eq_dec (ids (replace_handler d h)) (rh_id h) = 1.
Proof.
  assert (Hlist : _handlers (replace_handler d h) =
                  filter (fun g => negb (is_ g h)) (_handlers d) ++ [h]).
  { unfold replace_handler, add_handler, remove_handler, matches. simpl.
    pose proof (filter_not_is_absent (_handlers d) h) as Hnin.
    apply contains_not_In in Hnin. rewrite Hnin. reflexivity. }
  split; [reflexivity|]. split; [exact Hlist|]. split.
  - rewrite Hlist, rev_app_distr. reflexivity.
  - unfold ids. rewrite Hlist, map_app. simpl.
    apply count_occ_absent. apply filter_not_is_absent.
Qed.

(** ** Merging the defaults *)

(** C7, as the code has it. The merged headers hold, for a key looked up
    without regard to case, the request's own value when the request has one
    and the process default otherwise; the merged timeout is the request's
    when it is set and not zero, and the default [socket_timeout] otherwise;
    the merged proxy map is the request's when it is a non-empty map, and the
    host's otherwise. *)
Theorem merge_ydl_fields (d : RequestDirector PreparedRequest Response) (request : Request) :
  (forall k : string,
      CaseInsensitiveDict.getitem (headers (_merge_ydl d request)) k =
      match lookup_nocase (headers request) k with
      | Some v => Some v
      | None =>
          lookup_nocase (get_default (http_headers (params (ydl d))) []) k
      end)
  /\ timeout (_merge_ydl d request) =
       match timeout request with
       | Some q =>
           if Qeq_bool q (0 # 1)%Q then socket_timeout (params (ydl d))
           else Some q
       | None => socket_timeout (params (ydl d))
       end
  /\ proxies (_merge_ydl d request) =
       match proxies request with
       | Some (item :: items) => Some (item :: items)
       | Some [] => ydl_proxies (ydl d)
       | None => ydl_proxies (ydl d)
       end.
Proof.
  split; [|split].
  - intro k. simpl. apply getitem_make.
  - simpl. unfold py_or, number_truthy.
    destruct (timeout request) as [q|]; [|reflexivity].
    destruct (Qeq_bool q (0 # 1)%Q); reflexivity.
  - simpl. unfold py_or, PyDict.truthy, list_truthy.
    destruct (proxies request) as [[|item items]|]; reflexivity.
Qed.

(** ** The dispatch loop *)

Lemma attempt_unfold (p : PreparedRequest)
    (h : RequestHandler PreparedRequest Response) :
  attempt p h =
  match can_handle h p with
  | Raise e => Raise e
  | Return _ => handle h p
  end.
Proof.
  unfold attempt, try_body. destruct (can_handle h p); reflexivity.
Qed.

(** One turn of the loop, read off what the [try] body ends with. *)
Lemma iteration_unfold (p : PreparedRequest)
    (h : RequestHandler PreparedRequest Response)
    (st : locals PreparedRequest Response) :
  iteration bug_reports_message h p st =
  match attempt p h with
  | Raise (UnsupportedRequest e) =>
      (None,
       {| unexpected_errors := unexpected_errors st;
          unsupported_errors := unsupported_errors st ++ [e];
          trace := (trace st ++ snd (try_body h p))
            ++ [to_debugtraffic
                  (cannot_handle_message h (UnsupportedRequest e))] |})
  | Raise (OtherException n t) =>
      (None,
       {| unexpected_errors := unexpected_errors st ++ [OtherException n t];
          unsupported_errors := unsupported_errors st;
          trace := (trace st ++ snd (try_body h p))
            ++ [report_error
                  (unexpected_message bug_reports_message h
                     (OtherException n t)) false] |})
  | out =>
      (Some out,
       {| unexpected_errors := unexpected_errors st;
          unsupported_errors := unsupported_errors st;
          trace := trace st ++ snd (try_body h p) |})
  end.
Proof.
  unfold iteration, attempt.
  destruct (try_body h p) as [[r|[e|m|n t|n t]] events]; reflexivity.
Qed.

(** Splits a goal along what the [try] body of [h] ends with. *)
Ltac body_cases h p :=
  destruct (attempt p h) as [?|[?|?|? ?|? ?]] eqn:?; simpl in *.

Lemma calls_app (a b : list (event PreparedRequest Response)) :
  calls (a ++ b) = calls a ++ calls b.
Proof. unfold calls. apply filter_app. Qed.

Lemma walk_nonempty (handlers above below : list (RequestHandler PreparedRequest Response))
    (h : RequestHandler PreparedRequest Response) :
  rev handlers = above ++ h :: below ->
  Nat.eqb (List.length handlers) 0 = false.
Proof.
  intro Hrev. destruct handlers as [|g handlers]; [|reflexivity].
  simpl in Hrev. destruct above; discriminate.
Qed.

Lemma for_each_app (p : PreparedRequest)
    (a b : list (RequestHandler PreparedRequest Response)) :
  forall st : locals PreparedRequest Response,
    for_each bug_reports_message (a ++ b) p st =
    match for_each bug_reports_message a p st with
    | (Some out, st') => (Some out, st')
    | (None, st') => for_each bug_reports_message b p st'
    end.
Proof.
  induction a as [|h a IH]; intro st; simpl.
  - reflexivity.
  - destruct (iteration bug_reports_message h p st) as [[out|] st'].
    + reflexivity.
    + apply IH.
Qed.

(** Handlers that all decline or fault are walked to the end; their
    declinations and faults are recorded in order, and the handler calls made
    are those of their [try] bodies. *)
Lemma for_each_fall (p : PreparedRequest)
    (hs : list (RequestHandler PreparedRequest Response)) :
  forall st : locals PreparedRequest Response,
    forallb (falls_through p) hs = true ->
    fst (for_each bug_reports_message hs p st) = None
    /\ unexpected_errors (snd (for_each bug_reports_message hs p st)) =
         unexpected_errors st ++ flat_map (fault p) hs
    /\ unsupported_errors (snd (for_each bug_reports_message hs p st)) =
         unsupported_errors st ++ flat_map (declination p) hs
    /\ calls (trace (snd (for_each bug_reports_message hs p st))) =
         calls (trace st) ++ flat_map (body_calls p) hs.
Proof.
  induction hs as [|h hs IH]; intros st Hall; simpl.
  - rewrite !app_nil_r. auto.
  - simpl in Hall. apply andb_true_iff in Hall. destruct Hall as [Hh Hall].
    rewrite iteration_unfold. unfold falls_through in Hh.
    unfold fault at 1, declination at 1, body_calls at 1.
    body_cases h p; try discriminate;
      match goal with
      | |- context [for_each _ hs p ?s] =>
          destruct (IH s Hall) as (I1 & I2 & I3 & I4)
      end;
      rewrite I1, I2, I3, I4; simpl;
      rewrite !calls_app; simpl; rewrite <- ?app_assoc, ?app_nil_r; auto.
Qed.

Lemma for_each_fall_eq (p : PreparedRequest)
    (hs : list (RequestHandler PreparedRequest Response))
    (st : locals PreparedRequest Response) :
  forallb (falls_through p) hs = true ->
  for_each bug_reports_message hs p st =
  (None, snd (for_each bug_reports_message hs p st)).
Proof.
  intro Hall. pose proof (for_each_fall p hs st Hall) as [Hnone _].
  destruct (for_each bug_reports_message hs p st) as [r st']. simpl in *.
  subst r. reflexivity.
Qed.

(** The walk from a handler that is reached: the handlers before it all fell
    through. *)
Lemma for_each_reach (p : PreparedRequest)
    (above rest : list (RequestHandler PreparedRequest Response)) :
  forallb (falls_through p) above = true ->
  for_each bug_reports_message (above ++ rest) p start =
  for_each bug_reports_message rest p
    (snd (for_each bug_reports_message above p start)).
Proof.
  intro Hall. rewrite for_each_app.
  rewrite (for_each_fall_eq p above start Hall). reflexivity.
Qed.

Lemma first_served_fall (p : PreparedRequest)
    (above rest : list (RequestHandler PreparedRequest Response)) :
  forallb (falls_through p) above = true ->
  first_served p (above ++ rest) = first_served p rest.
Proof.
  induction above as [|h above IH]; simpl; intro Hall.
  - reflexivity.
  - apply andb_true_iff in Hall. destruct Hall as [Hh Hall].
    rewrite (IH Hall). unfold falls_through in Hh. unfold serves.
    rewrite attempt_unfold in Hh.
    destruct (can_handle h p) as [[]|e]; [|reflexivity].
    destruct (handle h p) as [r|e]; [discriminate|reflexivity].
Qed.

(** Events are only ever added. *)
Lemma iteration_trace_extends (p : PreparedRequest)
    (h : RequestHandler PreparedRequest Response)
    (st : locals PreparedRequest Response) :
  exists more,
    trace (snd (iteration bug_reports_message h p st)) = trace st ++ more
    /\ In (called_can_handle h) more.
Proof.
  assert (Hcan : In (called_can_handle h) (snd (try_body h p))).
  { unfold try_body. destruct (can_handle h p); simpl; tauto. }
  rewrite iteration_unfold.
  body_cases h p; rewrite <- ?app_assoc;
    eexists; (split; [reflexivity|]); rewrite ?in_app_iff; auto.
Qed.

Lemma for_each_trace_extends (p : PreparedRequest)
    (hs : list (RequestHandler PreparedRequest Response)) :
  forall st : locals PreparedRequest Response,
    exists more,
      trace (snd (for_each bug_reports_message hs p st)) = trace st ++ more.
Proof.
  induction hs as [|h hs IH]; intro st; simpl.
  - exists []. rewrite app_nil_r. reflexivity.
  - destruct (iteration_trace_extends p h st) as [m1 [H1 _]].
    destruct (iteration bug_reports_message h p st) as [[out|] st']; simpl in *.
    + exists m1. exact H1.
    + destruct (IH st') as [m2 H2]. exists (m1 ++ m2).
      rewrite H2, H1, app_assoc. reflexivity.
Qed.

(** C5. On an empty registry [send] raises the configuration error at once:
    the caller's request is as it was (nothing was merged or prepared) and
    there is no event, so no handler was called. *)
Theorem send_without_handlers (d : RequestDirector PreparedRequest Response)
    (request : Request) :
  _handlers d = [] ->
  send prepare bug_reports_message d request =
  {| returned := Raise (RequestError "No request handlers configured");
     request_after := request;
     events_of := [] |}.
Proof.
  intro Hempty. unfold send. rewrite Hempty. reflexivity.
Qed.

(** C1, as the code has it. When the handlers of higher priority than [h]
    (those added after it) all decline or fault, and [h] accepts the request
    and handles it, [send] returns the response of [h], which is the
    highest-priority handler that accepts and succeeds; the handler calls
    made are those on the handlers above [h] and on [h], the call of [handle]
    on [h] being the last event: no handler below [h] is called. *)
Theorem send_first_served (d : RequestDirector PreparedRequest Response)
    (request : Request)
    (above below : list (RequestHandler PreparedRequest Response))
    (h : RequestHandler PreparedRequest Response) (response : Response) :
  rev (_handlers d) = above ++ h :: below ->
  forallb (falls_through (prepare (_merge_ydl d request))) above = true ->
  can_handle h (prepare (_merge_ydl d request)) = Return tt ->
  handle h (prepare (_merge_ydl d request)) = Return response ->
  returned (send prepare bug_reports_message d request) = Return response
  /\ first_served (prepare (_merge_ydl d request)) (rev (_handlers d)) =
       Some response
  /\ calls (events_of (send prepare bug_reports_message d request)) =
       flat_map (body_calls (prepare (_merge_ydl d request))) (above ++ [h])
  /\ exists before,
       events_of (send prepare bug_reports_message d request) =
       before ++ [called_handle h].
Proof.
  intros Hrev Hall Hcan Hhandle.
  set (p := prepare (_merge_ydl d request)) in *.
  unfold send. rewrite (walk_nonempty _ _ _ _ Hrev). fold p.
  rewrite Hrev, (for_each_reach p above (h :: below) Hall).
  pose proof (for_each_fall p above start Hall) as (_ & _ & _ & Hcalls).
  set (st := snd (for_each bug_reports_message above p start)) in *.
  simpl. unfold iteration, try_body. rewrite Hcan, Hhandle. simpl.
  split; [reflexivity|]. split.
  - rewrite (first_served_fall p above (h :: below) Hall). simpl.
    unfold serves. rewrite Hcan, Hhandle. reflexivity.
  - split.
    + rewrite calls_app, Hcalls, flat_map_app. simpl.
      unfold body_calls, try_body. rewrite Hcan. simpl.
      reflexivity.
    + exists (trace st ++ [to_debugtraffic (forwarding_message h);
                          called_can_handle h]).
      rewrite <- app_assoc. reflexivity.
Qed.

(** Where a call of [handle] that raises a [RequestError] stands in the
    events of a walk: it was there before the walk, or the walk ended on it
    with that error. *)
Lemma for_each_handle_error (p : PreparedRequest)
    (h : RequestHandler PreparedRequest Response) (m : string)
    (hs : list (RequestHandler PreparedRequest Response)) :
  handle h p = Raise (RequestError m) ->
  forall st : locals PreparedRequest Response,
    In (called_handle h) (trace (snd (for_each bug_reports_message hs p st))) ->
    In (called_handle h) (trace st)
    \/ (fst (for_each bug_reports_message hs p st) = Some (Raise (RequestError m))
        /\ can_handle h p = Return tt
        /\ exists before,
             trace (snd (for_each bug_reports_message hs p st)) =
             before ++ [called_handle h]).
Proof.
  intro Hh. induction hs as [|g hs IH]; intros st Hin; simpl in *.
  - left. exact Hin.
  - unfold iteration, try_body in *.
    destruct (can_handle g p) as [[]|e] eqn:Ecan.
    + destruct (handle g p) as [r|e] eqn:Ehandle; [|destruct e]; simpl in *;
        try (apply IH in Hin; destruct Hin as [Hin|Hin]; [|right; exact Hin]);
        simpl in Hin; rewrite ?in_app_iff in Hin; simpl in Hin;
        decompose [or] Hin; try discriminate; try tauto;
        match goal with
        | H : called_handle _ = called_handle _ |- _ =>
            inversion H; subst; rewrite Hh in Ehandle;
            try discriminate; inversion Ehandle; subst
        end.
      right. split; [reflexivity|]. split; [exact Ecan|].
      exists (trace st ++ [to_debugtraffic (forwarding_message h);
                          called_can_handle h]).
      rewrite <- app_assoc. reflexivity.
    + destruct e; simpl in *;
        try (apply IH in Hin; destruct Hin as [Hin|Hin]; [|right; exact Hin]);
        simpl in Hin; rewrite ?in_app_iff in Hin; simpl in Hin;
        decompose [or] Hin; try discriminate; try tauto.
Qed.

(** C2. Whenever, in a call of [send], [handle] is called on a handler (which
    happens only once its [can_handle] has returned) and raises a
    [RequestError], [send] raises that very error, and the call of [handle]
    is the last event of the dispatch: no other handler is tried after it,
    whatever the handlers of lower priority would have done. *)
Theorem send_request_error_is_final
    (d : RequestDirector PreparedRequest Response) (request : Request)
    (h : RequestHandler PreparedRequest Response) (m : string) :
  In (called_handle h) (events_of (send prepare bug_reports_message d request)) ->
  handle h (prepare (_merge_ydl d request)) = Raise (RequestError m) ->
  returned (send prepare bug_reports_message d request) = Raise (RequestError m)
  /\ can_handle h (prepare (_merge_ydl d request)) = Return tt
  /\ exists before,
       events_of (send prepare bug_reports_message d request) =
       before ++ [called_handle h].
Proof.
  unfold send.
  destruct (Nat.eqb (List.length (_handlers d)) 0); simpl; [intros []|].
  set (p := prepare (_merge_ydl d request)). intros Hin Hh.
  pose proof (for_each_handle_error p h m (rev (_handlers d)) Hh start) as Hwalk.
  destruct (for_each bug_reports_message (rev (_handlers d)) p start)
    as [[out|] st]; simpl in *;
    (destruct (Hwalk Hin) as [[]|(Hout & Hcan & Hlast)]).
  - inversion Hout; subst. auto.
  - discriminate.
Qed.

(** What leaves the loop is a response, a [RequestError] or an exception
    outside [Exception]: declinations and unexpected faults never do. *)
Lemma for_each_leaves_with (p : PreparedRequest)
    (hs : list (RequestHandler PreparedRequest Response)) :
  forall (st : locals PreparedRequest Response) (e : exn),
    fst (for_each bug_reports_message hs p st) = Some (Raise e) ->
    (exists m, e = RequestError m) \/ (exists n t, e = NonException n t).
Proof.
  induction hs as [|h hs IH]; intros st e; simpl.
  - discriminate.
  - rewrite iteration_unfold.
    body_cases h p; try (apply IH); intro H; inversion H; subst; eauto.
Qed.

Lemma returned_conclude (request : Request)
    (r : option (outcome Response) * locals PreparedRequest Response) :
  returned (conclude request r) =
  match fst r with
  | Some out => out
  | None =>
      Raise (RequestError
               (err_str_of (reasons_of (unexpected_errors (snd r))
                                       (unsupported_errors (snd r)))))
  end.
Proof. destruct r as [[out|] st]; reflexivity. Qed.

Lemma events_of_conclude (request : Request)
    (r : option (outcome Response) * locals PreparedRequest Response) :
  events_of (conclude request r) = trace (snd r).
Proof. destruct r as [[out|] st]; reflexivity. Qed.

Lemma request_after_conclude (request : Request)
    (r : option (outcome Response) * locals PreparedRequest Response) :
  request_after (conclude request r) = request.
Proof. destruct r as [[out|] st]; reflexivity. Qed.

Lemma conclude_raises (request : Request)
    (hs : list (RequestHandler PreparedRequest Response)) (p : PreparedRequest)
    (st : locals PreparedRequest Response) (e : exn) :
  returned (conclude request (for_each bug_reports_message hs p st)) = Raise e ->
  (exists m, e = RequestError m) \/ (exists n t, e = NonException n t).
Proof.
  rewrite returned_conclude.
  destruct (fst (for_each bug_reports_message hs p st)) as [out|] eqn:E.
  - intro Hout. subst out. exact (for_each_leaves_with p hs st e E).
  - intro H. inversion H. eauto.
Qed.

(** The events play no part in what the walk yields. *)
Lemma for_each_same_errors (p : PreparedRequest)
    (hs : list (RequestHandler PreparedRequest Response)) :
  forall st1 st2 : locals PreparedRequest Response,
    unexpected_errors st1 = unexpected_errors st2 ->
    unsupported_errors st1 = unsupported_errors st2 ->
    fst (for_each bug_reports_message hs p st1) =
      fst (for_each bug_reports_message hs p st2)
    /\ unexpected_errors (snd (for_each bug_reports_message hs p st1)) =
         unexpected_errors (snd (for_each bug_reports_message hs p st2))
    /\ unsupported_errors (snd (for_each bug_reports_message hs p st1)) =
         unsupported_errors (snd (for_each bug_reports_message hs p st2)).
Proof.
  induction hs as [|h hs IH]; intros st1 st2 H1 H2; simpl.
  - auto.
  - rewrite !iteration_unfold.
    body_cases h p; auto; apply IH; simpl; congruence.
Qed.

Lemma next_handler_called (p : PreparedRequest)
    (below : list (RequestHandler PreparedRequest Response))
    (st : locals PreparedRequest Response) :
  forall h' rest,
    below = h' :: rest ->
    In (called_can_handle h')
       (trace (snd (for_each bug_reports_message below p st))).
Proof.
  intros h' rest ->. simpl.
  destruct (iteration_trace_extends p h' st) as [m1 [H1 Hin]].
  destruct (iteration bug_reports_message h' p st) as [[out|] st']; simpl in *.
  - rewrite H1, in_app_iff. auto.
  - destruct (for_each_trace_extends p rest st') as [m2 H2].
    rewrite H2, H1, !in_app_iff. auto.
Qed.

Lemma event_kept (p : PreparedRequest)
    (below : list (RequestHandler PreparedRequest Response))
    (st : locals PreparedRequest Response) (ev : event PreparedRequest Response) :
  In ev (trace st) ->
  In ev (trace (snd (for_each bug_reports_message below p st))).
Proof.
  intro Hin. destruct (for_each_trace_extends p below st) as [more ->].
  rewrite in_app_iff. auto.
Qed.

(** C3, as the code has it. When the walk reaches a handler that accepts the
    request and whose [handle] raises an [Exception] that is neither an
    [UnsupportedRequest] nor a [RequestError], [send] is the dispatch over
    the handlers below it, resumed with the fault appended to the unexpected
    errors and a [report_error] diagnostic with [is_error=False] emitted:
    the next handler in priority order, if any, is called, and [send] does
    not fail with an unexpected fault. *)
Theorem send_unexpected_fault_continues
    (d : RequestDirector PreparedRequest Response) (request : Request)
    (above below : list (RequestHandler PreparedRequest Response))
    (h : RequestHandler PreparedRequest Response) (n t : string) :
  rev (_handlers d) = above ++ h :: below ->
  forallb (falls_through (prepare (_merge_ydl d request))) above = true ->
  can_handle h (prepare (_merge_ydl d request)) = Return tt ->
  handle h (prepare (_merge_ydl d request)) = Raise (OtherException n t) ->
  send prepare bug_reports_message d request =
    conclude (_merge_ydl d request)
      (for_each bug_reports_message below (prepare (_merge_ydl d request))
         {| unexpected_errors :=
              unexpected_errors
                (snd (for_each bug_reports_message above
                        (prepare (_merge_ydl d request)) start))
              ++ [OtherException n t];
            unsupported_errors :=
              unsupported_errors
                (snd (for_each bug_reports_message above
                        (prepare (_merge_ydl d request)) start));
            trace :=
              trace (snd (for_each bug_reports_message above
                            (prepare (_merge_ydl d request)) start))
              ++ [to_debugtraffic (forwarding_message h);
                  called_can_handle h;
                  called_handle h;
                  report_error
                    (unexpected_message bug_reports_message h
                       (OtherException n t)) false] |})
  /\ In (report_error
           (unexpected_message bug_reports_message h (OtherException n t))
           false)
        (events_of (send prepare bug_reports_message d request))
  /\ (forall h' rest,
        below = h' :: rest ->
        In (called_can_handle h')
           (events_of (send prepare bug_reports_message d request)))
  /\ (forall n' t',
        returned (send prepare bug_reports_message d request) <>
        Raise (OtherException n' t')).
Proof.
  intros Hrev Hall Hcan Hhandle.
  set (p := prepare (_merge_ydl d request)) in *.
  set (st := snd (for_each bug_reports_message above p start)).
  match goal with
  | |- send _ _ _ _ = ?rhs /\ _ =>
      assert (Hsend : send prepare bug_reports_message d request = rhs)
  end.
  { unfold send. rewrite (walk_nonempty _ _ _ _ Hrev). fold p.
    rewrite Hrev, (for_each_reach p above (h :: below) Hall). fold st.
    simpl. unfold iteration, try_body. rewrite Hcan, Hhandle. simpl.
    rewrite <- app_assoc. reflexivity. }
  split; [exact Hsend|]. rewrite Hsend. split; [|split].
  - rewrite events_of_conclude. apply event_kept. simpl.
    rewrite in_app_iff. simpl. tauto.
  - intros h' rest Hbelow. rewrite events_of_conclude.
    eapply next_handler_called. exact Hbelow.
  - intros n' t' Hret. apply conclude_raises in Hret.
    destruct Hret as [[m Hm]|[n0 [t0 Hnt]]]; discriminate.
Qed.

Lemma merge_ydl_same_host (d d' : RequestDirector PreparedRequest Response)
    (request : Request) :
  ydl d' = ydl d -> _merge_ydl d' request = _merge_ydl d request.
Proof. unfold _merge_ydl. intros ->. reflexivity. Qed.

(** C10. When the walk reaches a handler whose [can_handle] returns and whose
    [handle] raises [UnsupportedRequest], [send] is the dispatch over the
    handlers below it, resumed with that declination appended to the
    unsupported errors and the "cannot handle" debug line emitted: the next
    handler, if any, is called, [send] never raises an [UnsupportedRequest],
    and it returns or raises exactly what it would had the handler in that
    slot raised the same [UnsupportedRequest] from [can_handle]. *)
Theorem send_unsupported_from_handle
    (d : RequestDirector PreparedRequest Response) (request : Request)
    (above below : list (RequestHandler PreparedRequest Response))
    (h : RequestHandler PreparedRequest Response) (e : unsupported) :
  rev (_handlers d) = above ++ h :: below ->
  forallb (falls_through (prepare (_merge_ydl d request))) above = true ->
  can_handle h (prepare (_merge_ydl d request)) = Return tt ->
  handle h (prepare (_merge_ydl d request)) = Raise (UnsupportedRequest e) ->
  send prepare bug_reports_message d request =
    conclude (_merge_ydl d request)
      (for_each bug_reports_message below (prepare (_merge_ydl d request))
         {| unexpected_errors :=
              unexpected_errors
                (snd (for_each bug_reports_message above
                        (prepare (_merge_ydl d request)) start));
            unsupported_errors :=
              unsupported_errors
                (snd (for_each bug_reports_message above
                        (prepare (_merge_ydl d request)) start))
              ++ [e];
            trace :=
              trace (snd (for_each bug_reports_message above
                            (prepare (_merge_ydl d request)) start))
              ++ [to_debugtraffic (forwarding_message h);
                  called_can_handle h;
                  called_handle h;
                  to_debugtraffic
                    (cannot_handle_message h (UnsupportedRequest e))] |})
  /\ (forall h' rest,
        below = h' :: rest ->
        In (called_can_handle h')
           (events_of (send prepare bug_reports_message d request)))
  /\ (forall e',
        returned (send prepare bug_reports_message d request) <>
        Raise (UnsupportedRequest e'))
  /\ (forall (d' : RequestDirector PreparedRequest Response)
             (g : RequestHandler PreparedRequest Response),
        ydl d' = ydl d ->
        rev (_handlers d') = above ++ g :: below ->
        can_handle g (prepare (_merge_ydl d request)) =
          Raise (UnsupportedRequest e) ->
        returned (send prepare bug_reports_message d' request) =
        returned (send prepare bug_reports_message d request)).
Proof.
  intros Hrev Hall Hcan Hhandle.
  set (p := prepare (_merge_ydl d request)) in *.
  set (st := snd (for_each bug_reports_message above p start)).
  match goal with
  | |- send _ _ _ _ = ?rhs /\ _ =>
      assert (Hsend : send prepare bug_reports_message d request = rhs)
  end.
  { unfold send. rewrite (walk_nonempty _ _ _ _ Hrev). fold p.
    rewrite Hrev, (for_each_reach p above (h :: below) Hall). fold st.
    simpl. unfold iteration, try_body. rewrite Hcan, Hhandle. simpl.
    rewrite <- app_assoc. reflexivity. }
  split; [exact Hsend|]. rewrite Hsend. split; [|split].
  - intros h' rest Hbelow. rewrite events_of_conclude.
    eapply next_handler_called. exact Hbelow.
  - intros e' Hret. apply conclude_raises in Hret.
    destruct Hret as [[m Hm]|[n0 [t0 Hnt]]]; discriminate.
  - intros d' g Hydl Hrev' Hdecl.
    unfold send at 1. rewrite (walk_nonempty _ _ _ _ Hrev').
    rewrite (merge_ydl_same_host d d' request Hydl). fold p.
    rewrite Hrev', (for_each_reach p above (g :: below) Hall). fold st.
    simpl. unfold iteration, try_body. rewrite Hdecl. simpl.
    rewrite !returned_conclude.
    match goal with
    | |- context [for_each _ below p ?s1] =>
        match goal with
        | |- _ = match fst (for_each _ below p ?s2) with _ => _ end =>
            destruct (for_each_same_errors p below s1 s2 eq_refl eq_refl)
              as (F1 & F2 & F3)
        end
    end.
    rewrite F1, F2, F3. reflexivity.
Qed.

(** ** The aggregated error *)

Lemma distinct_snoc (l : list string) (x : string) :
  distinct (l ++ [x]) =
  if in_dec string_dec x l then distinct l else distinct l ++ [x].
Proof.
  induction l as [|a l IH]; simpl.
  - reflexivity.
  - rewrite IH. destruct (in_dec string_dec x l) as [Hin|Hnin].
    + destruct (string_dec a x); reflexivity.
    + rewrite filter_app. simpl. destruct (string_dec a x) as [->|Hne].
      * rewrite String.eqb_refl. simpl. rewrite app_nil_r. reflexivity.
      * destruct (String.eqb x a) eqn:E.
        -- apply String.eqb_eq in E. congruence.
        -- reflexivity.
Qed.

Lemma In_distinct (l : list string) (x : string) :
  In x (distinct l) <-> In x l.
Proof.
  induction l as [|a l IH]; simpl.
  - tauto.
  - rewrite filter_In, IH. destruct (String.eqb x a) eqn:E.
    + apply String.eqb_eq in E. subst. tauto.
    + apply String.eqb_neq in E. simpl. intuition congruence.
Qed.

Lemma NoDup_distinct (l : list string) : NoDup (distinct l).
Proof.
  induction l as [|a l IH]; simpl; constructor.
  - rewrite filter_In, String.eqb_refl. simpl. intros [_ H]. discriminate.
  - apply NoDup_filter. exact IH.
Qed.

Section Keyed.

Variable V : Type.
Variable f : string -> V.

Lemma get_keyed_absent (ks : list string) (k : string) :
  ~ In k ks -> PyDict.get (map (fun r => (r, f r)) ks) k = None.
Proof.
  induction ks as [|a ks IH]; simpl; intro Hnin.
  - reflexivity.
  - destruct (String.eqb a k) eqn:E.
    + apply String.eqb_eq in E. tauto.
    + apply IH. tauto.
Qed.

Lemma get_keyed_present (ks : list string) (k : string) :
  In k ks -> PyDict.get (map (fun r => (r, f r)) ks) k = Some (f k).
Proof.
  induction ks as [|a ks IH]; simpl; intro Hin.
  - contradiction.
  - destruct (String.eqb a k) eqn:E.
    + apply String.eqb_eq in E. subst. reflexivity.
    + apply String.eqb_neq in E. apply IH. destruct Hin; congruence.
Qed.

Lemma setitem_keyed_absent (ks : list string) (k : string) (v : V) :
  ~ In k ks ->
  PyDict.setitem (map (fun r => (r, f r)) ks) k v =
  map (fun r => (r, f r)) ks ++ [(k, v)].
Proof.
  induction ks as [|a ks IH]; simpl; intro Hnin.
  - reflexivity.
  - destruct (String.eqb a k) eqn:E.
    + apply String.eqb_eq in E. tauto.
    + rewrite IH by tauto. reflexivity.
Qed.

Lemma setitem_keyed_present (ks : list string) (k : string) (v : V) :
  In k ks -> NoDup ks ->
  PyDict.setitem (map (fun r => (r, f r)) ks) k v =
  map (fun r => (r, if String.eqb r k then v else f r)) ks.
Proof.
  induction ks as [|a ks IH]; simpl; intros Hin Hnd.
  - contradiction.
  - inversion Hnd as [|? ? Ha Hrest]; subst.
    destruct (String.eqb a k) eqn:E.
    + apply String.eqb_eq in E. subst a. f_equal.
      apply map_ext_in. intros r Hr.
      destruct (String.eqb r k) eqn:Er; [|reflexivity].
      apply String.eqb_eq in Er. subst. contradiction.
    + apply String.eqb_neq in E. rewrite IH; [reflexivity| |exact Hrest].
      destruct Hin; congruence.
Qed.

End Keyed.

Lemma names_for_snoc (reason : string) (errs : list unsupported) (e : unsupported) :
  names_for reason (errs ++ [e]) =
  names_for reason errs
  ++ (if String.eqb (msg e) reason then [handler_RH_NAME e] else []).
Proof.
  unfold names_for. rewrite filter_app, map_app. simpl.
  destruct (String.eqb (msg e) reason); reflexivity.
Qed.

Lemma names_for_absent (reason : string) (errs : list unsupported) :
  ~ In reason (map msg errs) -> names_for reason errs = [].
Proof.
  unfold names_for. induction errs as [|e errs IH]; simpl; intro Hnin.
  - reflexivity.
  - destruct (String.eqb (msg e) reason) eqn:E.
    + apply String.eqb_eq in E. tauto.
    + apply IH. tauto.
Qed.

(** One more declination put into the dictionary. *)
Lemma setdefault_append_grouped (pre : list unsupported) (e : unsupported) :
  PyDict.setdefault_append (grouped pre) (msg e) (handler_RH_NAME e) =
  grouped (pre ++ [e]).
Proof.
  unfold PyDict.setdefault_append, grouped.
  rewrite map_app. simpl. rewrite distinct_snoc.
  destruct (in_dec string_dec (msg e) (map msg pre)) as [Hin|Hnin].
  - rewrite get_keyed_present by (apply In_distinct; exact Hin).
    rewrite setitem_keyed_present;
      [|apply In_distinct; exact Hin|apply NoDup_distinct].
    apply map_ext. intro r. rewrite names_for_snoc, (String.eqb_sym r).
    destruct (String.eqb (msg e) r) eqn:E.
    + apply String.eqb_eq in E. subst. reflexivity.
    + rewrite app_nil_r. reflexivity.
  - assert (Hnin' : ~ In (msg e) (distinct (map msg pre))).
    { rewrite In_distinct. exact Hnin. }
    rewrite get_keyed_absent by exact Hnin'.
    rewrite setitem_keyed_absent by exact Hnin'.
    rewrite map_app. simpl. f_equal.
    + apply map_ext_in. intros r Hr. rewrite names_for_snoc.
      destruct (String.eqb (msg e) r) eqn:E.
      * apply String.eqb_eq in E. subst. contradiction.
      * rewrite app_nil_r. reflexivity.
    + rewrite names_for_snoc, String.eqb_refl, (names_for_absent _ _ Hnin).
      reflexivity.
Qed.

(** The dictionary that [send] builds is the grouping by reason text. *)
Lemma err_handler_map_grouped (errs : list unsupported) :
  err_handler_map errs = grouped errs.
Proof.
  unfold err_handler_map.
  assert (H : forall pre,
             fold_left
               (fun m err =>
                  PyDict.setdefault_append m (msg err) (handler_RH_NAME err))
               errs (grouped pre) = grouped (pre ++ errs)).
  { induction errs as [|e errs IH]; intro pre; simpl.
    - rewrite app_nil_r. reflexivity.
    - rewrite setdefault_append_grouped, IH, <- app_assoc. reflexivity. }
  exact (H []).
Qed.

Lemma list_truthy_snoc {A : Type} (l : list A) (x : A) :
  list_truthy (l ++ [x]) = true.
Proof. destruct l; reflexivity. Qed.

Lemma fault_count (p : PreparedRequest)
    (hs : list (RequestHandler PreparedRequest Response)) :
  List.length (flat_map (fault p) hs) = List.length (filter (faulted p) hs).
Proof.
  induction hs as [|h hs IH]; simpl.
  - reflexivity.
  - rewrite length_app, IH. unfold fault, faulted.
    destruct (attempt p h) as [r|[e|m|n t|n t]]; reflexivity.
Qed.

(** The names that the declinations with a given reason carry are the names
    of the handlers that declined with it, when each declination refers back
    to the handler that raised it. *)
Lemma names_for_declinations (p : PreparedRequest) (reason : string)
    (hs : list (RequestHandler PreparedRequest Response)) :
  (forall h e,
      In h hs -> attempt p h = Raise (UnsupportedRequest e) ->
      handler_RH_NAME e = RH_NAME h) ->
  names_for reason (flat_map (declination p) hs) =
  map RH_NAME (filter (declines_with p reason) hs).
Proof.
  unfold names_for. induction hs as [|h hs IH]; simpl; intro Href.
  - reflexivity.
  - rewrite filter_app, map_app, IH by (intros; apply Href; auto).
    unfold declination, declines_with.
    destruct (attempt p h) as [r|[e|m|n t|n t]] eqn:E; simpl; try reflexivity.
    destruct (String.eqb (msg e) reason); simpl; [|reflexivity].
    rewrite (Href h e (or_introl eq_refl) E). reflexivity.
Qed.

Lemma declined_reason (p : PreparedRequest) (reason : string)
    (hs : list (RequestHandler PreparedRequest Response)) :
  In reason (map msg (flat_map (declination p) hs)) <->
  exists h, In h hs /\ declines_with p reason h = true.
Proof.
  rewrite in_map_iff. split.
  - intros [e [Hmsg Hin]]. apply in_flat_map in Hin.
    destruct Hin as [h [Hh He]]. exists h. split; [exact Hh|].
    unfold declination, declines_with in *.
    destruct (attempt p h) as [r|[e0|m|n t|n t]]; simpl in He; try contradiction.
    destruct He as [->|[]]. apply String.eqb_eq. exact Hmsg.
  - intros [h [Hh Hd]]. unfold declines_with in Hd.
    destruct (attempt p h) as [r|[e0|m|n t|n t]] eqn:E; try discriminate.
    exists e0. split; [apply String.eqb_eq; exact Hd|].
    apply in_flat_map. exists h. split; [exact Hh|].
    unfold declination. rewrite E. simpl. auto.
Qed.

Lemma reasons_of_spec (unexpected : list exn) (declined : list unsupported) :
  reasons_of unexpected declined =
  map reason_text (grouped declined)
  ++ (if Nat.eqb (List.length unexpected) 0 then []
      else [(str_of_nat (List.length unexpected)
             ++ " unexpected error(s)")%string]).
Proof.
  unfold reasons_of, PyDict.items, unexpected_count_text.
  rewrite err_handler_map_grouped.
  destruct unexpected as [|x l].
  - cbn [list_truthy List.length Nat.eqb]. rewrite app_nil_r. reflexivity.
  - reflexivity.
Qed.

Lemma err_str_of_truthy (reasons : list string) :
  list_truthy reasons = true ->
  err_str_of reasons =
  ("Unable to handle request, possible reason(s): " ++ join ", " reasons)%string.
Proof.
  intro H. unfold err_str_of. rewrite H. reflexivity.
Qed.

(** At least one reason is reported when handlers were walked and all fell
    through. *)
Lemma reasons_truthy (p : PreparedRequest)
    (hs : list (RequestHandler PreparedRequest Response)) :
  hs <> [] ->
  forallb (falls_through p) hs = true ->
  list_truthy
    (map reason_text (grouped (flat_map (declination p) hs))
     ++ (if Nat.eqb (List.length (filter (faulted p) hs)) 0 then []
         else [(str_of_nat (List.length (filter (faulted p) hs))
                ++ " unexpected error(s)")%string])) = true.
Proof.
  destruct hs as [|h hs]; [congruence|]. intros _ Hall. simpl in Hall.
  apply andb_true_iff in Hall. destruct Hall as [Hh _].
  simpl. unfold falls_through in Hh. unfold declination at 1, faulted at 1 2.
  destruct (attempt p h) as [r|[e|m|n t|n t]]; try discriminate; simpl.
  - reflexivity.
  - apply list_truthy_snoc.
Qed.

(** C4. When the registry is not empty and every handler declines or faults,
    [send] raises one [RequestError]. Its message lists, after "Unable to
    handle request, possible reason(s): ", one entry per distinct reason text
    (no text twice, and every text some handler declined with), each with the
    names of all the handlers that declined with that text, in the order of
    the walk; when some handlers faulted, their number follows as a last
    entry. Each declination is taken to refer back to the handler that
    raised it. *)
Theorem send_exhausted (d : RequestDirector PreparedRequest Response)
    (request : Request) :
  _handlers d <> [] ->
  forallb (falls_through (prepare (_merge_ydl d request)))
    (rev (_handlers d)) = true ->
  (forall h e,
      In h (rev (_handlers d)) ->
      attempt (prepare (_merge_ydl d request)) h = Raise (UnsupportedRequest e) ->
      handler_RH_NAME e = RH_NAME h) ->
  returned (send prepare bug_reports_message d request) =
    Raise (RequestError
      ("Unable to handle request, possible reason(s): "
       ++ join ", "
            ((map reason_text
                (grouped
                   (flat_map (declination (prepare (_merge_ydl d request)))
                      (rev (_handlers d))))
              ++ (if Nat.eqb
                       (List.length
                          (filter (faulted (prepare (_merge_ydl d request)))
                             (rev (_handlers d)))) 0
                  then []
                  else [(str_of_nat
                           (List.length
                              (filter
                                 (faulted (prepare (_merge_ydl d request)))
                                 (rev (_handlers d))))
                         ++ " unexpected error(s)")%string]))%list))%string)
  /\ NoDup
       (map fst
          (grouped
             (flat_map (declination (prepare (_merge_ydl d request)))
                (rev (_handlers d)))))
  /\ (forall reason,
        In reason
          (map fst
             (grouped
                (flat_map (declination (prepare (_merge_ydl d request)))
                   (rev (_handlers d)))))
        <-> exists h,
            In h (_handlers d)
            /\ declines_with (prepare (_merge_ydl d request)) reason h = true)
  /\ (forall reason names,
        In (reason, names)
          (grouped
             (flat_map (declination (prepare (_merge_ydl d request)))
                (rev (_handlers d)))) ->
        names =
        map RH_NAME
          (filter (declines_with (prepare (_merge_ydl d request)) reason)
             (rev (_handlers d)))).
Proof.
  intros Hne Hall Href.
  set (p := prepare (_merge_ydl d request)) in *.
  set (walk := rev (_handlers d)) in *.
  assert (Hkeys : map fst (grouped (flat_map (declination p) walk)) =
                  distinct (map msg (flat_map (declination p) walk))).
  { unfold grouped. rewrite map_map. simpl. apply map_id. }
  split; [|split; [|split]].
  - assert (Hlen : Nat.eqb (List.length (_handlers d)) 0 = false).
    { destruct (_handlers d); [congruence|reflexivity]. }
    assert (Hwalk : walk <> []).
    { unfold walk. intro Hnil. apply Hne.
      rewrite <- (rev_involutive (_handlers d)), Hnil. reflexivity. }
    unfold send. rewrite Hlen. fold p. fold walk.
    rewrite returned_conclude.
    destruct (for_each_fall p walk start Hall) as (F1 & F2 & F3 & _).
    rewrite F1, F2, F3.
    change (unexpected_errors start) with (@nil exn).
    change (unsupported_errors start) with (@nil unsupported).
    rewrite !app_nil_l, reasons_of_spec, fault_count.
    rewrite err_str_of_truthy by (apply reasons_truthy; assumption).
    reflexivity.
  - rewrite Hkeys. apply NoDup_distinct.
  - intro reason. rewrite Hkeys, In_distinct, declined_reason.
    unfold walk. split; intros [h [Hh Hd]]; exists h;
      (split; [|exact Hd]); apply in_rev; try rewrite rev_involutive; exact Hh.
  - intros reason names Hin. unfold grouped in Hin.
    apply in_map_iff in Hin. destruct Hin as [r [Heq _]].
    inversion Heq; subst. apply names_for_declinations. exact Href.
Qed.

(** ** The caller's request *)

(** With a handler registered, the request object that the caller passed
    holds, after [send], the merged fields. *)
Lemma send_request_after (d : RequestDirector PreparedRequest Response)
    (request : Request) :
  _handlers d <> [] ->
  request_after (send prepare bug_reports_message d request) =
  _merge_ydl d request.
Proof.
  intro Hne. unfold send.
  destruct (_handlers d) as [|h hs] eqn:E; [congruence|].
  simpl List.length. simpl Nat.eqb. cbv iota.
  apply request_after_conclude.
Qed.

(** ** More on the registry *)

Lemma filter_split_length {A : Type} (f : A -> bool) (l : list A) :
  List.length (filter f l) + List.length (filter (fun x => negb (f x)) l) =
  List.length l.
Proof.
  induction l as [|a l IH]; simpl.
  - reflexivity.
  - destruct (f a); simpl; lia.
Qed.

Lemma filter_none {A : Type} (f : A -> bool) (l : list A) :
  filter f (filter (fun x => negb (f x)) l) = [].
Proof.
  induction l as [|a l IH]; simpl.
  - reflexivity.
  - destruct (f a) eqn:E; simpl; [exact IH|]. rewrite E. exact IH.
Qed.

Lemma filter_swap {A : Type} (f g : A -> bool) (l : list A) :
  filter f (filter g l) = filter g (filter f l).
Proof.
  induction l as [|a l IH]; simpl.
  - reflexivity.
  - destruct (g a) eqn:Eg, (f a) eqn:Ef; simpl; rewrite ?Eg, ?Ef, IH;
      reflexivity.
Qed.

Lemma filter_twice {A : Type} (f : A -> bool) (l : list A) :
  filter f (filter f l) = filter f l.
Proof.
  induction l as [|a l IH]; simpl.
  - reflexivity.
  - destruct (f a) eqn:E; simpl; rewrite ?E, IH; reflexivity.
Qed.

Lemma filter_all {A : Type} (f : A -> bool) (l : list A) :
  (forall x, In x l -> f x = true) -> filter f l = l.
Proof.
  induction l as [|a l IH]; simpl; intro H.
  - reflexivity.
  - rewrite (H a (or_introl eq_refl)), IH by auto. reflexivity.
Qed.

(** What [get_handlers] returns and what [remove_handler] leaves split the
    registry: a registered handler is returned when it matches the key (its
    class is the key, or it is the key) and left otherwise; nothing that
    matches is left, and no handler is lost or doubled. *)
Theorem get_handlers_remove_handler_split
    (d : RequestDirector PreparedRequest Response)
    (k : handler_key PreparedRequest Response) :
  (forall h, In h (get_handlers d k) <->
             In h (_handlers d) /\ matches k h = true)
  /\ (forall h, In h (_handlers (remove_handler d k)) <->
                In h (_handlers d) /\ matches k h = false)
  /\ get_handlers (remove_handler d k) k = []
  /\ List.length (get_handlers d k)
       + List.length (_handlers (remove_handler d k)) =
     List.length (_handlers d).
Proof.
  unfold get_handlers, remove_handler. simpl. split; [|split; [|split]].
  - intro h. apply filter_In.
  - intro h. rewrite filter_In, negb_true_iff. reflexivity.
  - apply filter_none.
  - apply filter_split_length.
Qed.

(** Removing twice is removing once, and removals by two keys can be done in
    either order. *)
Theorem remove_handler_idempotent_commutes
    (d : RequestDirector PreparedRequest Response)
    (k k' : handler_key PreparedRequest Response) :
  remove_handler (remove_handler d k) k = remove_handler d k
  /\ remove_handler (remove_handler d k) k' =
     remove_handler (remove_handler d k') k.
Proof.
  unfold remove_handler. simpl. split; f_equal.
  - apply filter_twice.
  - apply filter_swap.
Qed.

(** Removing an instance that was just added, and was not registered before,
    gives back the director as it was. *)
Theorem remove_handler_add_handler
    (d : RequestDirector PreparedRequest Response)
    (h : RequestHandler PreparedRequest Response) :
  ~ In (rh_id h) (ids d) ->
  remove_handler (add_handler d h) (an_instance h) = d.
Proof.
  intro Hnin. pose proof Hnin as Hc. apply contains_not_In in Hc.
  unfold add_handler. rewrite Hc. destruct d as [l y]. simpl in *.
  unfold remove_handler, matches. simpl. f_equal.
  rewrite filter_app. simpl. unfold is_ at 2. rewrite Nat.eqb_refl. simpl.
  rewrite app_nil_r. apply filter_all. intros g Hg.
  unfold is_. destruct (Nat.eqb (rh_id g) (rh_id h)) eqn:E; [|reflexivity].
  apply Nat.eqb_eq in E. exfalso. apply Hnin. unfold ids. simpl.
  rewrite <- E. apply in_map. exact Hg.
Qed.

(** Replacing a handler twice is replacing it once; for a handler that is
    not registered, replacing is adding. *)
Theorem replace_handler_idempotent
    (d : RequestDirector PreparedRequest Response)
    (h : RequestHandler PreparedRequest Response) :
  replace_handler (replace_handler d h) h = replace_handler d h
  /\ (~ In (rh_id h) (ids d) -> replace_handler d h = add_handler d h).
Proof.
  assert (Hrep : forall d0 : RequestDirector PreparedRequest Response,
             replace_handler d0 h =
             {| _handlers := filter (fun g => negb (is_ g h)) (_handlers d0) ++ [h];
                ydl := ydl d0 |}).
  { intro d0. unfold replace_handler, add_handler, remove_handler, matches.
    simpl. pose proof (filter_not_is_absent (_handlers d0) h) as Hnin.
    apply contains_not_In in Hnin. rewrite Hnin. reflexivity. }
  split.
  - rewrite (Hrep (replace_handler d h)), (Hrep d). simpl. f_equal.
    rewrite filter_app, filter_twice. simpl. unfold is_ at 2.
    rewrite Nat.eqb_refl. simpl. rewrite app_nil_r. reflexivity.
  - intro Hnin. rewrite Hrep. pose proof Hnin as Hc.
    apply contains_not_In in Hc. unfold add_handler. rewrite Hc. simpl.
    f_equal. f_equal. apply filter_all. intros g Hg. unfold is_.
    destruct (Nat.eqb (rh_id g) (rh_id h)) eqn:E; [|reflexivity].
    apply Nat.eqb_eq in E. exfalso. apply Hnin. unfold ids.
    rewrite <- E. apply in_map. exact Hg.
Qed.

Lemma one_instance (l : list (RequestHandler PreparedRequest Response))
    (h : RequestHandler PreparedRequest Response) :
  NoDup (map rh_id l) -> In (rh_id h) (map rh_id l) ->
  List.length (filter (fun g => is_ g h) l) = 1.
Proof.
  induction l as [|a l IH]; simpl; intros Hnd Hin.
  - contradiction.
  - inversion Hnd as [|? ? Ha Hrest]; subst. unfold is_ at 1.
    destruct (Nat.eqb (rh_id a) (rh_id h)) eqn:E; simpl.
    + apply Nat.eqb_eq in E. f_equal.
      assert (Hnone : filter (fun g => is_ g h) l = []).
      { clear IH Hin Hnd Hrest. induction l as [|b l IHl]; simpl.
        - reflexivity.
        - unfold is_ at 1.
          destruct (Nat.eqb (rh_id b) (rh_id h)) eqn:Eb.
          + apply Nat.eqb_eq in Eb. exfalso. apply Ha. simpl. left. congruence.
          + apply IHl. intro Hin. apply Ha. simpl. right. exact Hin. }
      rewrite Hnone. reflexivity.
    + apply Nat.eqb_neq in E. apply IH; [exact Hrest|].
      destruct Hin as [Heq|Hin]; [congruence|exact Hin].
Qed.

(** Once [add_handler h] was called on a director built by the operations,
    [get_handlers h] returns exactly one handler, which is the instance
    [h]. *)
Theorem get_handlers_after_add_handler
    (d : RequestDirector PreparedRequest Response)
    (h : RequestHandler PreparedRequest Response) :
  reachable d ->
  exists g,
    get_handlers (add_handler d h) (an_instance h) = [g]
    /\ rh_id g = rh_id h.
Proof.
  intro Hreach.
  assert (Hnd : NoDup (ids (add_handler d h))).
  { apply add_handler_NoDup, reachable_NoDup. exact Hreach. }
  assert (Hin : In (rh_id h) (ids (add_handler d h))).
  { unfold ids, add_handler.
    destruct (contains (_handlers d) h) eqn:E; simpl.
    - apply contains_In. exact E.
    - rewrite map_app, in_app_iff. simpl. auto. }
  pose proof (one_instance _ h Hnd Hin) as Hlen.
  unfold get_handlers, matches. simpl.
  destruct (filter (fun g => is_ g h) (_handlers (add_handler d h)))
    as [|g [|g' rest]] eqn:E; simpl in Hlen; try discriminate.
  exists g. split; [reflexivity|].
  assert (Hg : In g (filter (fun g => is_ g h) (_handlers (add_handler d h)))).
  { rewrite E. simpl. auto. }
  apply filter_In in Hg. destruct Hg as [_ Hg]. apply Nat.eqb_eq. exact Hg.
Qed.

(** ** More on dispatch *)

(** What [send] raises is a [RequestError] or an exception outside
    [Exception]: a declination or an unexpected fault of a handler never goes
    out of [send]. *)
Theorem send_raises_only (d : RequestDirector PreparedRequest Response)
    (request : Request) (e : exn) :
  returned (send prepare bug_reports_message d request) = Raise e ->
  (exists m, e = RequestError m) \/ (exists n t, e = NonException n t).
Proof.
  unfold send. destruct (Nat.eqb (List.length (_handlers d)) 0); simpl.
  - intro H. inversion H. eauto.
  - apply conclude_raises.
Qed.

Lemma for_each_provenance (p : PreparedRequest)
    (hs : list (RequestHandler PreparedRequest Response)) :
  forall (st : locals PreparedRequest Response) (out : outcome Response),
    fst (for_each bug_reports_message hs p st) = Some out ->
    exists h, In h hs /\ attempt p h = out.
Proof.
  induction hs as [|h hs IH]; intros st out; simpl.
  - discriminate.
  - rewrite iteration_unfold.
    destruct (attempt p h) as [r|[e|m|n t|n t]] eqn:E; simpl; intro H;
      try (inversion H; subst; exists h; split; [left; reflexivity|exact E]);
      apply IH in H; destruct H as [g [Hg Hout]]; exists g; auto.
Qed.

(** A response that [send] returns, or an exception outside [Exception] that
    it raises, is what the [try] body of some registered handler ended with:
    in particular a returned response is what [handle] returned on a handler
    whose [can_handle] returned. *)
Theorem send_outcome_from_handler
    (d : RequestDirector PreparedRequest Response) (request : Request)
    (out : outcome Response) :
  (forall m, out <> Raise (RequestError m)) ->
  returned (send prepare bug_reports_message d request) = out ->
  exists h,
    In h (_handlers d)
    /\ attempt (prepare (_merge_ydl d request)) h = out
    /\ (forall r, out = Return r ->
          can_handle h (prepare (_merge_ydl d request)) = Return tt
          /\ handle h (prepare (_merge_ydl d request)) = Return r).
Proof.
  intros Hnot. unfold send.
  destruct (Nat.eqb (List.length (_handlers d)) 0); simpl.
  - intro H. subst out. exfalso. eapply Hnot. reflexivity.
  - set (p := prepare (_merge_ydl d request)).
    rewrite returned_conclude.
    destruct (fst (for_each bug_reports_message (rev (_handlers d)) p start))
      as [o|] eqn:E.
    + intro H. subst o. apply for_each_provenance in E.
      destruct E as [h [Hh Hout]]. exists h. split; [apply in_rev; exact Hh|].
      split; [exact Hout|]. intros r ->. rewrite attempt_unfold in Hout.
      destruct (can_handle h p) as [[]|e]; [auto|discriminate].
    + intro H. subst out. exfalso. eapply Hnot. reflexivity.
Qed.

Lemma try_body_events (p : PreparedRequest)
    (g : RequestHandler PreparedRequest Response)
    (ev : event PreparedRequest Response) :
  In ev (snd (try_body g p)) ->
  is_call ev = true ->
  ev = called_can_handle g
  \/ (ev = called_handle g /\ can_handle g p = Return tt).
Proof.
  unfold try_body. destruct (can_handle g p) as [[]|e]; simpl;
    intros H Hcall; decompose [or] H; subst; try discriminate; auto;
    contradiction.
Qed.

Lemma for_each_calls_from (p : PreparedRequest)
    (hs : list (RequestHandler PreparedRequest Response))
    (ev : event PreparedRequest Response) :
  is_call ev = true ->
  forall st : locals PreparedRequest Response,
    In ev (trace (snd (for_each bug_reports_message hs p st))) ->
    In ev (trace st)
    \/ exists g, In g hs /\ In ev (snd (try_body g p)).
Proof.
  intro Hcall. induction hs as [|h hs IH]; intros st; simpl.
  - auto.
  - rewrite iteration_unfold.
    destruct (attempt p h) as [r|[e|m|n t|n t]]; simpl; intro Hin;
      try (apply IH in Hin; simpl in Hin;
           destruct Hin as [Hin|[g [Hg Hev]]]; [|right; exists g; auto]);
      rewrite ?in_app_iff in Hin; simpl in Hin;
      decompose [or] Hin; subst; try discriminate; auto;
      try contradiction; right; exists h; auto.
Qed.

(** [send] calls only registered handlers, and calls [handle] only on a
    handler whose [can_handle] has returned. *)
Theorem send_calls_registered_accepting
    (d : RequestDirector PreparedRequest Response) (request : Request)
    (h : RequestHandler PreparedRequest Response) :
  In (called_handle h) (events_of (send prepare bug_reports_message d request))
  \/ In (called_can_handle h)
       (events_of (send prepare bug_reports_message d request)) ->
  In h (_handlers d)
  /\ (In (called_handle h)
         (events_of (send prepare bug_reports_message d request)) ->
      can_handle h (prepare (_merge_ydl d request)) = Return tt).
Proof.
  unfold send. destruct (Nat.eqb (List.length (_handlers d)) 0); simpl.
  - intros [[]|[]].
  - set (p := prepare (_merge_ydl d request)).
    rewrite events_of_conclude.
    assert (Hfrom : forall ev, is_call ev = true ->
              In ev (trace (snd (for_each bug_reports_message
                                   (rev (_handlers d)) p start))) ->
              exists g, In g (_handlers d) /\ In ev (snd (try_body g p))).
    { intros ev Hcall Hin.
      destruct (for_each_calls_from p _ ev Hcall start Hin) as [[]|[g [Hg Hev]]].
      exists g. split; [apply in_rev; exact Hg|exact Hev]. }
    intro Hin. split.
    + destruct Hin as [Hin|Hin]; apply Hfrom in Hin; try reflexivity;
        destruct Hin as [g [Hg Hev]];
        apply try_body_events in Hev; try reflexivity;
        destruct Hev as [Heq|[Heq _]]; inversion Heq; subst; exact Hg.
    + intro Hh. apply Hfrom in Hh; [|reflexivity].
      destruct Hh as [g [Hg Hev]].
      apply try_body_events in Hev; [|reflexivity].
      destruct Hev as [Heq|[Heq Hcan]]; inversion Heq; subst. exact Hcan.
Qed.

Lemma iteration_calls (p : PreparedRequest)
    (h : RequestHandler PreparedRequest Response)
    (st : locals PreparedRequest Response) :
  calls (trace (snd (iteration bug_reports_message h p st))) =
  calls (trace st) ++ body_calls p h.
Proof.
  rewrite iteration_unfold. unfold body_calls.
  destruct (attempt p h) as [r|[e|m|n t|n t]]; simpl;
    rewrite !calls_app; simpl; rewrite ?app_nil_r; reflexivity.
Qed.

Lemma for_each_calls_prefix (p : PreparedRequest)
    (hs : list (RequestHandler PreparedRequest Response)) :
  forall st : locals PreparedRequest Response,
    exists n,
      calls (trace (snd (for_each bug_reports_message hs p st))) =
      calls (trace st) ++ flat_map (body_calls p) (firstn n hs).
Proof.
  induction hs as [|h hs IH]; intro st; simpl.
  - exists 0. simpl. rewrite app_nil_r. reflexivity.
  - pose proof (iteration_calls p h st) as Hit.
    destruct (iteration bug_reports_message h p st) as [[out|] st'];
      simpl in *.
    + exists 1. simpl. rewrite app_nil_r. exact Hit.
    + destruct (IH st') as [n Hn]. exists (S n). simpl.
      rewrite Hn, Hit, <- app_assoc. reflexivity.
Qed.

(** The handler calls of [send] follow the registry backwards, from the
    handler added last, without leaving one out: they are the calls of the
    [try] bodies of the first few handlers in that order. *)
Theorem send_calls_in_reverse_order
    (d : RequestDirector PreparedRequest Response) (request : Request) :
  exists n,
    calls (events_of (send prepare bug_reports_message d request)) =
    flat_map (body_calls (prepare (_merge_ydl d request)))
      (firstn n (rev (_handlers d))).
Proof.
  unfold send. destruct (Nat.eqb (List.length (_handlers d)) 0); simpl.
  - exists 0. reflexivity.
  - rewrite events_of_conclude.
    destruct (for_each_calls_prefix (prepare (_merge_ydl d request))
                (rev (_handlers d)) start) as [n Hn].
    exists n. exact Hn.
Qed.

(** The first handler, in priority order, that neither declines nor faults
    decides the call: [send] returns or raises what the [try] body of that
    handler ended with, whatever the handlers below it would do, and its
    events end with those of that body. *)
Theorem send_decided_by_first
    (d : RequestDirector PreparedRequest Response) (request : Request)
    (above below : list (RequestHandler PreparedRequest Response))
    (h : RequestHandler PreparedRequest Response) :
  rev (_handlers d) = above ++ h :: below ->
  forallb (falls_through (prepare (_merge_ydl d request))) above = true ->
  falls_through (prepare (_merge_ydl d request)) h = false ->
  returned (send prepare bug_reports_message d request) =
    attempt (prepare (_merge_ydl d request)) h
  /\ calls (events_of (send prepare bug_reports_message d request)) =
       flat_map (body_calls (prepare (_merge_ydl d request))) (above ++ [h])
  /\ exists before,
       events_of (send prepare bug_reports_message d request) =
       before ++ snd (try_body h (prepare (_merge_ydl d request))).
Proof.
  intros Hrev Hall Hh.
  set (p := prepare (_merge_ydl d request)) in *.
  unfold send. rewrite (walk_nonempty _ _ _ _ Hrev). fold p.
  rewrite Hrev, (for_each_reach p above (h :: below) Hall).
  pose proof (for_each_fall p above start Hall) as (_ & _ & _ & Hcalls).
  set (st := snd (for_each bug_reports_message above p start)) in *.
  simpl for_each. rewrite iteration_unfold. unfold falls_through in Hh.
  simpl in Hcalls.
  destruct (attempt p h) as [r|[e|m|n t|n t]] eqn:E; try discriminate;
    simpl; (split; [reflexivity|]);
    (split; [|exists (trace st); reflexivity]);
    rewrite calls_app, Hcalls, flat_map_app; simpl; rewrite app_nil_r;
    reflexivity.
Qed.

(** When the walk reaches a handler whose [can_handle] raises
    [UnsupportedRequest], [handle] is not called on it: [send] is the
    dispatch over the handlers below, resumed with the declination recorded
    and the "cannot handle" debug line emitted. *)
Theorem send_declined_by_can_handle
    (d : RequestDirector PreparedRequest Response) (request : Request)
    (above below : list (RequestHandler PreparedRequest Response))
    (h : RequestHandler PreparedRequest Response) (e : unsupported) :
  rev (_handlers d) = above ++ h :: below ->
  forallb (falls_through (prepare (_merge_ydl d request))) above = true ->
  can_handle h (prepare (_merge_ydl d request)) = Raise (UnsupportedRequest e) ->
  send prepare bug_reports_message d request =
    conclude (_merge_ydl d request)
      (for_each bug_reports_message below (prepare (_merge_ydl d request))
         {| unexpected_errors :=
              unexpected_errors
                (snd (for_each bug_reports_message above
                        (prepare (_merge_ydl d request)) start));
            unsupported_errors :=
              unsupported_errors
                (snd (for_each bug_reports_message above
                        (prepare (_merge_ydl d request)) start))
              ++ [e];
            trace :=
              trace (snd (for_each bug_reports_message above
                            (prepare (_merge_ydl d request)) start))
              ++ [to_debugtraffic (forwarding_message h);
                  called_can_handle h;
                  to_debugtraffic
                    (cannot_handle_message h (UnsupportedRequest e))] |}).
Proof.
  intros Hrev Hall Hcan.
  set (p := prepare (_merge_ydl d request)) in *.
  unfold send. rewrite (walk_nonempty _ _ _ _ Hrev). fold p.
  rewrite Hrev, (for_each_reach p above (h :: below) Hall).
  simpl. unfold iteration, try_body. rewrite Hcan. simpl.
  rewrite <- app_assoc. reflexivity.
Qed.

(** An unexpected [Exception] raised by [can_handle] is treated as one
    raised by [handle]: it is recorded and reported with [is_error=False],
    [handle] is not called on that handler, and the walk goes on. *)
Theorem send_can_handle_fault
    (d : RequestDirector PreparedRequest Response) (request : Request)
    (above below : list (RequestHandler PreparedRequest Response))
    (h : RequestHandler PreparedRequest Response) (n t : string) :
  rev (_handlers d) = above ++ h :: below ->
  forallb (falls_through (prepare (_merge_ydl d request))) above = true ->
  can_handle h (prepare (_merge_ydl d request)) = Raise (OtherException n t) ->
  send prepare bug_reports_message d request =
    conclude (_merge_ydl d request)
      (for_each bug_reports_message below (prepare (_merge_ydl d request))
         {| unexpected_errors :=
              unexpected_errors
                (snd (for_each bug_reports_message above
                        (prepare (_merge_ydl d request)) start))
              ++ [OtherException n t];
            unsupported_errors :=
              unsupported_errors
                (snd (for_each bug_reports_message above
                        (prepare (_merge_ydl d request)) start));
            trace :=
              trace (snd (for_each bug_reports_message above
                            (prepare (_merge_ydl d request)) start))
              ++ [to_debugtraffic (forwarding_message h);
                  called_can_handle h;
                  report_error
                    (unexpected_message bug_reports_message h
                       (OtherException n t)) false] |}).
Proof.
  intros Hrev Hall Hcan.
  set (p := prepare (_merge_ydl d request)) in *.
  unfold send. rewrite (walk_nonempty _ _ _ _ Hrev). fold p.
  rewrite Hrev, (for_each_reach p above (h :: below) Hall).
  simpl. unfold iteration, try_body. rewrite Hcan. simpl.
  rewrite <- app_assoc. reflexivity.
Qed.

Lemma replace_handler_record (d : RequestDirector PreparedRequest Response)
    (h : RequestHandler PreparedRequest Response) :
  replace_handler d h =
  {| _handlers := filter (fun g => negb (is_ g h)) (_handlers d) ++ [h];
     ydl := ydl d |}.
Proof.
  unfold replace_handler, add_handler, remove_handler, matches. simpl.
  pose proof (filter_not_is_absent (_handlers d) h) as Hnin.
  apply contains_not_In in Hnin. rewrite Hnin. reflexivity.
Qed.

(** A director whose last registered handler accepts the request and handles
    it: [send] returns its response and calls no other handler. *)
Lemma send_last_serves (d : RequestDirector PreparedRequest Response)
    (request : Request) (others : list (RequestHandler PreparedRequest Response))
    (h : RequestHandler PreparedRequest Response) (r : Response) :
  _handlers d = others ++ [h] ->
  can_handle h (prepare (_merge_ydl d request)) = Return tt ->
  handle h (prepare (_merge_ydl d request)) = Return r ->
  returned (send prepare bug_reports_message d request) = Return r
  /\ events_of (send prepare bug_reports_message d request) =
       [to_debugtraffic (forwarding_message h);
        called_can_handle h;
        called_handle h].
Proof.
  intros Hlast Hcan Hhandle.
  assert (Hrev : rev (_handlers d) = [] ++ h :: rev others).
  { rewrite Hlast, rev_app_distr. reflexivity. }
  unfold send. rewrite (walk_nonempty _ _ _ _ Hrev), Hrev. simpl.
  unfold iteration, try_body. rewrite Hcan, Hhandle. simpl. auto.
Qed.

(** After [replace_handler h], a request that [h] accepts and handles is
    served by [h], whatever else is registered and wherever [h] stood
    before: no other handler is called. *)
Theorem send_after_replace_handler
    (d : RequestDirector PreparedRequest Response) (request : Request)
    (h : RequestHandler PreparedRequest Response) (r : Response) :
  can_handle h (prepare (_merge_ydl d request)) = Return tt ->
  handle h (prepare (_merge_ydl d request)) = Return r ->
  returned (send prepare bug_reports_message (replace_handler d h) request) =
    Return r
  /\ events_of (send prepare bug_reports_message (replace_handler d h) request) =
       [to_debugtraffic (forwarding_message h);
        called_can_handle h;
        called_handle h].
Proof.
  intros Hcan Hhandle.
  assert (Hm : _merge_ydl (replace_handler d h) request = _merge_ydl d request).
  { apply merge_ydl_same_host. rewrite replace_handler_record. reflexivity. }
  apply (send_last_serves (replace_handler d h) request
           (filter (fun g => negb (is_ g h)) (_handlers d)) h r).
  - rewrite replace_handler_record. reflexivity.
  - rewrite Hm. exact Hcan.
  - rewrite Hm. exact Hhandle.
Qed.

(** A handler that is added while no registered handler is that instance is
    prioritized over the existing handlers: a request that it accepts and
    handles is served by it, and no other handler is called. *)
Theorem send_after_add_handler
    (d : RequestDirector PreparedRequest Response) (request : Request)
    (h : RequestHandler PreparedRequest Response) (r : Response) :
  ~ In (rh_id h) (ids d) ->
  can_handle h (prepare (_merge_ydl d request)) = Return tt ->
  handle h (prepare (_merge_ydl d request)) = Return r ->
  returned (send prepare bug_reports_message (add_handler d h) request) =
    Return r
  /\ events_of (send prepare bug_reports_message (add_handler d h) request) =
       [to_debugtraffic (forwarding_message h);
        called_can_handle h;
        called_handle h].
Proof.
  intros Hnin Hcan Hhandle. apply contains_not_In in Hnin.
  assert (Hadd : add_handler d h =
                 {| _handlers := _handlers d ++ [h]; ydl := ydl d |}).
  { unfold add_handler. rewrite Hnin. reflexivity. }
  assert (Hm : _merge_ydl (add_handler d h) request = _merge_ydl d request).
  { apply merge_ydl_same_host. rewrite Hadd. reflexivity. }
  apply (send_last_serves (add_handler d h) request (_handlers d) h r).
  - rewrite Hadd. reflexivity.
  - rewrite Hm. exact Hcan.
  - rewrite Hm. exact Hhandle.
Qed.

Lemma distinct_constant (reason : string) (l : list string) :
  l <> [] -> (forall x, In x l -> x = reason) -> distinct l = [reason].
Proof.
  induction l as [|x l IH]; intros Hne Hall; [congruence|].
  simpl. rewrite (Hall x (or_introl eq_refl)).
  destruct l as [|y l'].
  - reflexivity.
  - rewrite IH; [|discriminate|intros z Hz; apply Hall; right; exact Hz].
    simpl. rewrite String.eqb_refl. reflexivity.
Qed.

Lemma grouped_one_reason (reason : string) (errs : list unsupported) :
  errs <> [] ->
  (forall e, In e errs -> msg e = reason) ->
  grouped errs = [(reason, map handler_RH_NAME errs)].
Proof.
  intros Hne Hall. unfold grouped.
  assert (Hnames : names_for reason errs = map handler_RH_NAME errs).
  { unfold names_for. rewrite filter_all; [reflexivity|].
    intros e He. apply String.eqb_eq. apply Hall. exact He. }
  assert (Hd : distinct (map msg errs) = [reason]).
  { apply distinct_constant.
    - destruct errs; [congruence|discriminate].
    - intros x Hx. apply in_map_iff in Hx. destruct Hx as [e [<- He]].
      apply Hall. exact He. }
  rewrite Hd. simpl. rewrite Hnames. reflexivity.
Qed.

(** When every handler declines with the same reason text, the error of
    [send] gives that text once, followed by the names that the
    declinations carry, in the order in which the handlers were tried. *)
Theorem send_one_reason (d : RequestDirector PreparedRequest Response)
    (request : Request) (reason : string) :
  _handlers d <> [] ->
  (forall h,
      In h (_handlers d) ->
      exists e,
        attempt (prepare (_merge_ydl d request)) h = Raise (UnsupportedRequest e)
        /\ msg e = reason) ->
  returned (send prepare bug_reports_message d request) =
    Raise (RequestError
      ("Unable to handle request, possible reason(s): "
       ++ reason ++ " ("
       ++ join ", "
            (map handler_RH_NAME
               (flat_map (declination (prepare (_merge_ydl d request)))
                  (rev (_handlers d))))
       ++ ")")%string).
Proof.
  intros Hne Hall.
  set (p := prepare (_merge_ydl d request)) in *.
  set (walk := rev (_handlers d)) in *.
  assert (Hwalk : forall h, In h walk ->
            exists e, attempt p h = Raise (UnsupportedRequest e)
                      /\ msg e = reason).
  { intros h Hh. apply Hall. apply in_rev. exact Hh. }
  assert (Hne' : walk <> []).
  { unfold walk. intro Hnil. apply Hne.
    rewrite <- (rev_involutive (_handlers d)), Hnil. reflexivity. }
  assert (Hfall : forallb (falls_through p) walk = true).
  { apply forallb_forall. intros h Hh. destruct (Hwalk h Hh) as [e [He _]].
    unfold falls_through. rewrite He. reflexivity. }
  assert (Hfaults : flat_map (fault p) walk = []).
  { clear Hne' Hfall. induction walk as [|h w IH]; simpl; [reflexivity|].
    rewrite IH by (intros; apply Hwalk; right; assumption).
    destruct (Hwalk h (or_introl eq_refl)) as [e [He _]].
    unfold fault. rewrite He. reflexivity. }
  assert (Hdecl : flat_map (declination p) walk <> []).
  { destruct walk as [|h w]; [congruence|]. simpl.
    destruct (Hwalk h (or_introl eq_refl)) as [e [He _]].
    unfold declination at 1. rewrite He. discriminate. }
  assert (Hmsg : forall e, In e (flat_map (declination p) walk) ->
                           msg e = reason).
  { intros e He. apply in_flat_map in He. destruct He as [h [Hh He]].
    destruct (Hwalk h Hh) as [e' [He' Hr]]. unfold declination in He.
    rewrite He' in He. destruct He as [<-|[]]. exact Hr. }
  assert (Hlen : Nat.eqb (List.length (_handlers d)) 0 = false).
  { destruct (_handlers d); [congruence|reflexivity]. }
  unfold send. rewrite Hlen. fold p. fold walk.
  rewrite returned_conclude.
  destruct (for_each_fall p walk start Hfall) as (F1 & F2 & F3 & _).
  rewrite F1, F2, F3.
  change (unexpected_errors start) with (@nil exn).
  change (unsupported_errors start) with (@nil unsupported).
  rewrite !app_nil_l, Hfaults, reasons_of_spec.
  rewrite (grouped_one_reason reason _ Hdecl Hmsg).
  reflexivity.
Qed.

(** ** Merging again *)

Lemma lower_ascii_idempotent (c : ascii) :
  lower_ascii (lower_ascii c) = lower_ascii c.
Proof.
  destruct c as [[] [] [] [] [] [] [] []]; reflexivity.
Qed.

Lemma casefold_idempotent (s : string) : casefold (casefold s) = casefold s.
Proof.
  induction s as [|c s IH]; simpl.
  - reflexivity.
  - rewrite lower_ascii_idempotent, IH. reflexivity.
Qed.

Lemma keys_setitem {V : Type} (d : PyDict.t V) (k : string) (v : V) :
  PyDict.keys (PyDict.setitem d k v) =
  if in_dec string_dec k (PyDict.keys d) then PyDict.keys d
  else PyDict.keys d ++ [k].
Proof.
  unfold PyDict.keys. induction d as [|[k0 v0] d IH]; simpl.
  - reflexivity.
  - destruct (String.eqb k0 k) eqn:E; simpl.
    + apply String.eqb_eq in E. subst.
      destruct (string_dec k k); [reflexivity|congruence].
    + apply String.eqb_neq in E. rewrite IH.
      destruct (string_dec k0 k); [congruence|].
      destruct (in_dec string_dec k (map fst d)); reflexivity.
Qed.

(** A case-insensitive dictionary holds case-folded keys, each once. *)
Lemma update_keys (src : PyDict.t string) :
  forall d : CaseInsensitiveDict.t,
    NoDup (PyDict.keys d) ->
    Forall (fun k => casefold k = k) (PyDict.keys d) ->
    NoDup (PyDict.keys (CaseInsensitiveDict.update d src))
    /\ Forall (fun k => casefold k = k)
         (PyDict.keys (CaseInsensitiveDict.update d src)).
Proof.
  unfold CaseInsensitiveDict.update.
  induction src as [|[k v] src IH]; intros d Hnd Hfold; simpl.
  - auto.
  - apply IH; unfold CaseInsensitiveDict.setitem; simpl; rewrite keys_setitem;
      destruct (in_dec string_dec (casefold k) (PyDict.keys d)); auto.
    + apply NoDup_app_remove_r with (l' := []). rewrite app_nil_r.
      apply Permutation_NoDup with (l := casefold k :: PyDict.keys d).
      * apply Permutation_cons_append.
      * constructor; assumption.
    + apply Forall_app. split; [exact Hfold|].
      constructor; [apply casefold_idempotent|constructor].
Qed.

Lemma lookup_nocase_folded (d : PyDict.t string) (k : string) :
  NoDup (PyDict.keys d) ->
  Forall (fun k => casefold k = k) (PyDict.keys d) ->
  lookup_nocase d k = PyDict.get d (casefold k).
Proof.
  unfold PyDict.keys.
  induction d as [|[k0 v0] d IH]; simpl; intros Hnd Hfold.
  - reflexivity.
  - inversion Hnd as [|? ? Hk0 Hrest]; subst.
    inversion Hfold as [|? ? Hf0 Hfrest]; subst.
    rewrite (IH Hrest Hfrest), Hf0.
    destruct (String.eqb k0 (casefold k)) eqn:E.
    + apply String.eqb_eq in E. subst k0.
      destruct (PyDict.get d (casefold k)) as [w|] eqn:G; [|reflexivity].
      exfalso. apply Hk0. clear - G.
      induction d as [|[k1 v1] d IHd]; simpl in *; [discriminate|].
      destruct (String.eqb k1 (casefold k)) eqn:E1.
      * apply String.eqb_eq in E1. auto.
      * auto.
    + destruct (PyDict.get d (casefold k)); reflexivity.
Qed.

(** Merging the defaults into a request that already went through the merge
    changes nothing more: the timeout and the proxies are the same, and so
    is what the headers hold for any key. A request object that [send] has
    overwritten is prepared the same way when it is sent again. *)
Theorem merge_ydl_twice (d : RequestDirector PreparedRequest Response)
    (request : Request) :
  timeout (_merge_ydl d (_merge_ydl d request)) =
    timeout (_merge_ydl d request)
  /\ proxies (_merge_ydl d (_merge_ydl d request)) =
       proxies (_merge_ydl d request)
  /\ forall k : string,
       CaseInsensitiveDict.getitem
         (headers (_merge_ydl d (_merge_ydl d request))) k =
       CaseInsensitiveDict.getitem (headers (_merge_ydl d request)) k.
Proof.
  split; [|split].
  - simpl. unfold py_or.
    destruct (timeout request) as [q|].
    + destruct (number_truthy q) eqn:E; [rewrite E; reflexivity|].
      destruct (socket_timeout (params (ydl d))) as [q'|]; [|reflexivity].
      destruct (number_truthy q'); reflexivity.
    + destruct (socket_timeout (params (ydl d))) as [q'|]; [|reflexivity].
      destruct (number_truthy q'); reflexivity.
  - simpl. unfold py_or.
    destruct (proxies request) as [m|].
    + destruct (PyDict.truthy m) eqn:E; [rewrite E; reflexivity|].
      destruct (ydl_proxies (ydl d)) as [m'|]; [|reflexivity].
      destruct (PyDict.truthy m'); reflexivity.
    + destruct (ydl_proxies (ydl d)) as [m'|]; [|reflexivity].
      destruct (PyDict.truthy m'); reflexivity.
  - intro k. simpl.
    set (defaults := get_default (http_headers (params (ydl d))) []).
    set (m := CaseInsensitiveDict.make defaults (headers request)).
    assert (Hm : NoDup (PyDict.keys m)
                 /\ Forall (fun k => casefold k = k) (PyDict.keys m)).
    { unfold m, CaseInsensitiveDict.make.
      apply update_keys; apply update_keys; constructor. }
    destruct Hm as [Hnd Hfold].
    rewrite getitem_make, (lookup_nocase_folded m k Hnd Hfold).
    fold (CaseInsensitiveDict.getitem m k).
    destruct (CaseInsensitiveDict.getitem m k) as [v|] eqn:G; [reflexivity|].
    unfold m in G. rewrite getitem_make in G.
    destruct (lookup_nocase (headers request) k); [discriminate|exact G].
Qed.

End DirectorProofs.

(** ** Closing *)

Section CloseProofs.

Variable PreparedRequest : Type.
Variable Response : Type.
Variable close_handler : RequestHandler PreparedRequest Response -> outcome unit.

Lemma close_each_app
    (before rest : list (RequestHandler PreparedRequest Response)) :
  (forall g, In g before -> close_handler g = Return tt) ->
  close_each close_handler (before ++ rest) =
  (fst (close_each close_handler rest),
   before ++ snd (close_each close_handler rest)).
Proof.
  induction before as [|g before IH]; intro Hall; simpl.
  - destruct (close_each close_handler rest); reflexivity.
  - rewrite (Hall g (or_introl eq_refl)).
    rewrite IH by (intros; apply Hall; right; assumption). reflexivity.
Qed.

(** When no [close] raises, [close] calls it on every registered handler,
    once each, in the order of registration (not in the order of
    dispatch). *)
Theorem close_closes_all (d : RequestDirector PreparedRequest Response) :
  (forall h, In h (_handlers d) -> close_handler h = Return tt) ->
  close close_handler d = (Return tt, _handlers d).
Proof.
  intro Hall. unfold close.
  rewrite <- (app_nil_r (_handlers d)) at 1.
  rewrite (close_each_app _ [] Hall). simpl. rewrite app_nil_r. reflexivity.
Qed.

(** When the [close] of a handler raises, the exception goes out of the
    director's [close] and the handlers registered after that one are not
    closed. *)
Theorem close_stops_at_failure (d : RequestDirector PreparedRequest Response)
    (before after : list (RequestHandler PreparedRequest Response))
    (h : RequestHandler PreparedRequest Response) (e : exn) :
  _handlers d = before ++ h :: after ->
  (forall g, In g before -> close_handler g = Return tt) ->
  close_handler h = Raise e ->
  close close_handler d = (Raise e, before ++ [h]).
Proof.
  intros Hsplit Hall Hh. unfold close.
  rewrite Hsplit, (close_each_app _ (h :: after) Hall). simpl.
  rewrite Hh. reflexivity.
Qed.

End CloseProofs.

(** ** The handler classes of the module *)

Lemma endswith_unfold (s suffix : string) :
  Catalog.endswith s suffix =
  if String.eqb s suffix then true
  else
    match s with
    | EmptyString => false
    | String _ s' => Catalog.endswith s' suffix
    end.
Proof. destruct s; reflexivity. Qed.

Lemma endswith_suffix (s suffix : string) :
  Catalog.endswith s suffix = true <-> exists k, s = (k ++ suffix)%string.
Proof.
  induction s as [|c s IH]; rewrite endswith_unfold.
  - destruct (String.eqb EmptyString suffix) eqn:E.
    + apply String.eqb_eq in E. subst. split; [|reflexivity].
      intros _. exists EmptyString. reflexivity.
    + apply String.eqb_neq in E. split; [discriminate|].
      intros [k Hk]. destruct k; simpl in Hk; [congruence|discriminate].
  - destruct (String.eqb (String c s) suffix) eqn:E.
    + apply String.eqb_eq in E. split; [|reflexivity].
      intros _. exists EmptyString. exact E.
    + apply String.eqb_neq in E. rewrite IH. split.
      * intros [k Hk]. exists (String c k). simpl. rewrite Hk. reflexivity.
      * intros [k Hk]. destruct k as [|c' k]; simpl in Hk.
        -- congruence.
        -- inversion Hk; subst. exists k. reflexivity.
Qed.

Lemma keyed_spec (xs : list Catalog.value) (l : list (string * Catalog.value)) :
  Catalog.keyed xs = Catalog.Ok l ->
  map snd l = xs
  /\ Forall (fun kx => fst kx = Catalog.key_of (snd kx)
                       /\ Catalog.RH_NAME (snd kx) <> None) l.
Proof.
  revert l. induction xs as [|x xs IH]; simpl; intros l H.
  - inversion H. split; constructor.
  - unfold Catalog.sort_key, Catalog.key_of in *.
    destruct (Catalog.RH_NAME x) as [name|] eqn:E; [|discriminate].
    destruct (Catalog.keyed xs) as [l'|e]; [|discriminate].
    inversion H; subst. destruct (IH l' eq_refl) as [Hmap Hall].
    simpl. split; [rewrite Hmap; reflexivity|].
    constructor; [|exact Hall]. simpl. rewrite E. split; congruence.
Qed.

Lemma keyed_fails (xs : list Catalog.value) (e : Catalog.error) :
  Catalog.keyed xs = Catalog.Err e ->
  e = Catalog.AttributeError "RH_NAME"
  /\ exists x, In x xs /\ Catalog.RH_NAME x = None.
Proof.
  induction xs as [|x xs IH]; simpl; [discriminate|].
  unfold Catalog.sort_key.
  destruct (Catalog.RH_NAME x) as [name|] eqn:E.
  - destruct (Catalog.keyed xs) as [l|e0]; [discriminate|].
    intro H. inversion H; subst. destruct (IH eq_refl) as [He [y [Hy Hn]]].
    split; [exact He|]. exists y. auto.
  - intro H. inversion H; subst. split; [reflexivity|]. exists x. auto.
Qed.

Lemma keyed_error (xs : list Catalog.value) :
  (exists x, In x xs /\ Catalog.RH_NAME x = None) <->
  Catalog.keyed xs = Catalog.Err (Catalog.AttributeError "RH_NAME").
Proof.
  split.
  - intros [x [Hx Hnone]].
    destruct (Catalog.keyed xs) as [l|e] eqn:E.
    + exfalso. destruct (keyed_spec xs l E) as [Hmap Hall].
      rewrite <- Hmap in Hx. apply in_map_iff in Hx.
      destruct Hx as [kx [<- Hkx]]. rewrite Forall_forall in Hall.
      destruct (Hall kx Hkx) as [_ Hsome]. contradiction.
    + destruct (keyed_fails xs e E) as [-> _]. reflexivity.
  - intro H. apply keyed_fails in H. tauto.
Qed.

Lemma insert_permutation (kx : string * Catalog.value)
    (l : list (string * Catalog.value)) :
  Permutation (kx :: l) (Catalog.insert kx l).
Proof.
  induction l as [|ky l IH]; simpl.
  - apply Permutation_refl.
  - destruct (String.leb (fst kx) (fst ky)).
    + apply Permutation_refl.
    + apply perm_trans with (ky :: kx :: l); [apply perm_swap|].
      apply perm_skip. exact IH.
Qed.

Lemma sort_keyed_permutation (l : list (string * Catalog.value)) :
  Permutation l (Catalog.sort_keyed l).
Proof.
  induction l as [|kx l IH]; simpl.
  - constructor.
  - apply perm_trans with (kx :: Catalog.sort_keyed l).
    + apply perm_skip. exact IH.
    + apply insert_permutation.
Qed.

Lemma insert_sorted (kx : string * Catalog.value)
    (l : list (string * Catalog.value)) :
  Sorted (fun a b => String.leb (fst a) (fst b) = true) l ->
  Sorted (fun a b => String.leb (fst a) (fst b) = true) (Catalog.insert kx l).
Proof.
  induction l as [|ky l IH]; simpl; intro Hs.
  - constructor; constructor.
  - destruct (String.leb (fst kx) (fst ky)) eqn:E.
    + constructor; [exact Hs|]. constructor. exact E.
    + inversion Hs as [|? ? Hs' Hhd]; subst.
      constructor; [apply IH; exact Hs'|].
      assert (Hle : String.leb (fst ky) (fst kx) = true).
      { destruct (String.leb_total (fst kx) (fst ky)); congruence. }
      destruct l as [|kz l]; simpl.
      * constructor. exact Hle.
      * destruct (String.leb (fst kx) (fst kz)).
        -- constructor. exact Hle.
        -- constructor. inversion Hhd; assumption.
Qed.

Lemma sort_keyed_sorted (l : list (string * Catalog.value)) :
  Sorted (fun a b => String.leb (fst a) (fst b) = true) (Catalog.sort_keyed l).
Proof.
  induction l as [|kx l IH]; simpl.
  - constructor.
  - apply insert_sorted. exact IH.
Qed.

Lemma sorted_values (l : list (string * Catalog.value)) :
  Forall (fun kx => fst kx = Catalog.key_of (snd kx)
                    /\ Catalog.RH_NAME (snd kx) <> None) l ->
  Sorted (fun a b => String.leb (fst a) (fst b) = true) l ->
  Sorted (fun a b => String.leb (Catalog.key_of a) (Catalog.key_of b) = true)
    (map snd l).
Proof.
  induction l as [|kx l IH]; simpl; intros Hall Hs.
  - constructor.
  - inversion Hall as [|? ? [Hk _] Hrest]; subst.
    inversion Hs as [|? ? Hs' Hhd]; subst.
    constructor; [apply IH; assumption|].
    destruct l as [|ky l]; simpl; constructor.
    inversion Hrest as [|? ? [Hk' _] _]; subst.
    inversion Hhd; subst. rewrite <- Hk, <- Hk'. assumption.
Qed.

Lemma candidates_In (globals : PyDict.t Catalog.value) (v : Catalog.value) :
  In v (Catalog.candidates globals) <->
  exists name, In (name, v) globals /\ Catalog.endswith name "RH" = true.
Proof.
  unfold Catalog.candidates, PyDict.items. rewrite in_map_iff. split.
  - intros [[name x] [Heq Hin]]. simpl in Heq. subst x.
    apply filter_In in Hin. exists name. exact Hin.
  - intros [name [Hin Hend]]. exists (name, v). split; [reflexivity|].
    apply filter_In. auto.
Qed.

Lemma listed_membership
    (globals : PyDict.t Catalog.value) (l : list Catalog.value) :
  Catalog.list_request_handler_classes globals = Catalog.Ok l ->
  Permutation (Catalog.candidates globals) l
  /\ (forall v,
        In v l <->
        exists name, In (name, v) globals /\ Catalog.endswith name "RH" = true).
Proof.
  unfold Catalog.list_request_handler_classes, Catalog.sorted_by_key.
  destruct (Catalog.keyed (Catalog.candidates globals)) as [kl|e] eqn:E;
    [|discriminate].
  intro H. inversion H; subst. clear H.
  destruct (keyed_spec _ _ E) as [Hmap _].
  assert (Hperm : Permutation (Catalog.candidates globals)
                    (map snd (Catalog.sort_keyed kl))).
  { rewrite <- Hmap. apply Permutation_map. apply sort_keyed_permutation. }
  split; [exact Hperm|].
  intro v. rewrite <- candidates_In. split; intro Hin.
  - apply Permutation_in with (l := map snd (Catalog.sort_keyed kl));
      [apply Permutation_sym; exact Hperm|exact Hin].
  - apply Permutation_in with (l := Catalog.candidates globals);
      [exact Hperm|exact Hin].
Qed.

(** When it returns, [list_request_handler_classes] gives the objects of the
    module whose name ends with [RH], each as often as it is bound, ordered
    by lower-cased [RH_NAME]. *)
Theorem list_request_handler_classes_sorted
    (globals : PyDict.t Catalog.value) (l : list Catalog.value) :
  Catalog.list_request_handler_classes globals = Catalog.Ok l ->
  Permutation (Catalog.candidates globals) l
  /\ Sorted (fun a b => String.leb (Catalog.key_of a) (Catalog.key_of b) = true) l
  /\ (forall v,
        In v l <->
        exists name, In (name, v) globals /\ Catalog.endswith name "RH" = true)
  /\ (forall v, In v l -> exists name, Catalog.RH_NAME v = Some name).
Proof.
  unfold Catalog.list_request_handler_classes, Catalog.sorted_by_key.
  destruct (Catalog.keyed (Catalog.candidates globals)) as [kl|e] eqn:E;
    [|discriminate].
  intro H. inversion H; subst. clear H.
  destruct (keyed_spec _ _ E) as [Hmap Hall].
  assert (Hperm : Permutation (Catalog.candidates globals)
                    (map snd (Catalog.sort_keyed kl))).
  { rewrite <- Hmap. apply Permutation_map. apply sort_keyed_permutation. }
  assert (Hall' : Forall (fun kx => fst kx = Catalog.key_of (snd kx)
                                    /\ Catalog.RH_NAME (snd kx) <> None)
                    (Catalog.sort_keyed kl)).
  { rewrite Forall_forall in *. intros kx Hkx. apply Hall.
    apply Permutation_in with (l := Catalog.sort_keyed kl); [|exact Hkx].
    apply Permutation_sym. apply sort_keyed_permutation. }
  split; [exact Hperm|]. split; [|split].
  - apply sorted_values; [exact Hall'|apply sort_keyed_sorted].
  - intro v. rewrite <- candidates_In. split; intro Hin.
    + apply Permutation_in with (l := map snd (Catalog.sort_keyed kl));
        [apply Permutation_sym; exact Hperm|exact Hin].
    + apply Permutation_in with (l := Catalog.candidates globals);
        [exact Hperm|exact Hin].
  - intros v Hin. apply in_map_iff in Hin. destruct Hin as [kx [<- Hkx]].
    rewrite Forall_forall in Hall'. destruct (Hall' kx Hkx) as [_ Hsome].
    destruct (Catalog.RH_NAME (snd kx)) as [name|]; [eauto|congruence].
Qed.

(** [list_request_handler_classes] fails, with an [AttributeError] for
    [RH_NAME], exactly when some object whose name ends with [RH] has no
    [RH_NAME]; it raises nothing else. *)
Theorem list_request_handler_classes_error (globals : PyDict.t Catalog.value) :
  ((exists name v,
       In (name, v) globals /\ Catalog.endswith name "RH" = true
       /\ Catalog.RH_NAME v = None) <->
   Catalog.list_request_handler_classes globals =
   Catalog.Err (Catalog.AttributeError "RH_NAME"))
  /\ (forall e,
        Catalog.list_request_handler_classes globals = Catalog.Err e ->
        e = Catalog.AttributeError "RH_NAME").
Proof.
  unfold Catalog.list_request_handler_classes, Catalog.sorted_by_key.
  pose proof (keyed_error (Catalog.candidates globals)) as Hk.
  split.
  - split.
    + intros [name [v [Hin [Hend Hnone]]]].
      assert (Hx : exists x, In x (Catalog.candidates globals)
                             /\ Catalog.RH_NAME x = None).
      { exists v. split; [apply candidates_In; eauto|exact Hnone]. }
      apply Hk in Hx. rewrite Hx. reflexivity.
    + destruct (Catalog.keyed (Catalog.candidates globals)) as [kl|e] eqn:E;
        [discriminate|].
      intro H. inversion H; subst.
      destruct Hk as [_ Hk]. destruct (Hk eq_refl) as [x [Hx Hnone]].
      apply candidates_In in Hx. destruct Hx as [name [Hin Hend]].
      exists name, x. auto.
  - intros e.
    destruct (Catalog.keyed (Catalog.candidates globals)) as [kl|e'] eqn:E;
      [discriminate|].
    intro H. inversion H; subst. apply keyed_fails in E. tauto.
Qed.

Lemma get_In {V : Type} (d : PyDict.t V) (k : string) (v : V) :
  PyDict.get d k = Some v -> In (k, v) d.
Proof.
  induction d as [|[k0 v0] d IH]; simpl; [discriminate|].
  destruct (String.eqb k0 k) eqn:E.
  - apply String.eqb_eq in E. intro H. inversion H; subst. auto.
  - auto.
Qed.

Lemma In_get {V : Type} (d : PyDict.t V) (k : string) (v : V) :
  NoDup (PyDict.keys d) -> In (k, v) d -> PyDict.get d k = Some v.
Proof.
  unfold PyDict.keys. induction d as [|[k0 v0] d IH]; simpl; intros Hnd Hin.
  - contradiction.
  - inversion Hnd as [|? ? Hk0 Hrest]; subst.
    destruct Hin as [Heq|Hin].
    + inversion Heq; subst. rewrite String.eqb_refl. reflexivity.
    + destruct (String.eqb k0 k) eqn:E.
      * apply String.eqb_eq in E. subst. exfalso. apply Hk0.
        apply in_map_iff. exists (k, v). auto.
      * apply IH; assumption.
Qed.

(** A handler class that [get_request_handler] finds under a key is one of
    those that [list_request_handler_classes] lists. *)
Theorem get_request_handler_listed (globals : PyDict.t Catalog.value)
    (key : string) (rh : Catalog.value) (l : list Catalog.value) :
  Catalog.get_request_handler globals key = Catalog.Ok rh ->
  Catalog.list_request_handler_classes globals = Catalog.Ok l ->
  In rh l.
Proof.
  unfold Catalog.get_request_handler. intros Hget Hlist.
  destruct (PyDict.get globals (key ++ "RH")) as [v|] eqn:G; [|discriminate].
  inversion Hget; subst.
  apply get_In in G.
  destruct (listed_membership globals l Hlist) as [_ Hin].
  apply Hin. exists (key ++ "RH")%string. split; [exact G|].
  apply endswith_suffix. exists key. reflexivity.
Qed.

(** Every class that [list_request_handler_classes] lists is found by
    [get_request_handler] under its name in the module without the final
    [RH]; and a key whose name is not bound gives a [KeyError] for that
    name. *)
Theorem listed_get_request_handler (globals : PyDict.t Catalog.value)
    (l : list Catalog.value) :
  NoDup (PyDict.keys globals) ->
  Catalog.list_request_handler_classes globals = Catalog.Ok l ->
  (forall rh, In rh l ->
     exists key, Catalog.get_request_handler globals key = Catalog.Ok rh)
  /\ (forall key,
        ~ In (key ++ "RH")%string (PyDict.keys globals) ->
        Catalog.get_request_handler globals key =
        Catalog.Err (Catalog.KeyError (key ++ "RH"))).
Proof.
  intros Hnd Hlist. split.
  - intros rh Hin.
    destruct (listed_membership globals l Hlist) as [_ Hl].
    apply Hl in Hin. destruct Hin as [name [Hin Hend]].
    apply endswith_suffix in Hend. destruct Hend as [key ->].
    exists key. unfold Catalog.get_request_handler.
    rewrite (In_get globals _ rh Hnd Hin). reflexivity.
  - intros key Hnin. unfold Catalog.get_request_handler.
    destruct (PyDict.get globals (key ++ "RH")) as [v|] eqn:G; [|reflexivity].
    exfalso. apply Hnin. apply get_In in G. unfold PyDict.keys.
    apply in_map_iff. exists ((key ++ "RH")%string, v). auto.
Qed.

(** * The statements on the sample objects *)

Import Samples.

Lemma add_handler_at_most_once_witness :
  reachable registered
  /\ (NoDup (ids registered)
      /\ NoDup (ids (add_handler registered A))
      /\ (In (rh_id A) (ids registered) -> add_handler registered A = registered)
      /\ (~ In (rh_id A) (ids registered) ->
          _handlers (add_handler registered A) = _handlers registered ++ [A])).
Proof.
  assert (Hreach : reachable registered).
  { unfold registered. apply reach_add. apply reach_add. apply reach_init. }
  split; [exact Hreach|].
  exact (add_handler_at_most_once Request string registered A Hreach).
Defined.

(** Adding [A] again leaves [A] before [B]; replacing it puts it after. *)
Example readd_and_replace :
  _handlers (add_handler registered A) = [A; B]
  /\ _handlers (replace_handler registered A) = [B; A].
Proof. split; reflexivity. Qed.

Lemma send_without_handlers_witness :
  _handlers (director []) = []
  /\ send' [] plain =
     {| returned := Raise (RequestError "No request handlers configured");
        request_after := plain;
        events_of := [] |}.
Proof.
  split; [reflexivity|].
  exact (send_without_handlers Request string (fun r => r) "" (director [])
           plain eq_refl).
Defined.

(** C1 as stated fails: [B] accepts the request and handles it, and is the
    only handler to do so, yet [send] raises the error of [E], which was
    added after [B]. *)
Lemma send_first_served_counterexample :
  _handlers (director [B; E]) <> []
  /\ first_served (merged plain) (rev [B; E]) = Some "from B"
  /\ returned (send' [B; E] plain) = Raise (RequestError "boom")
  /\ returned (send' [B; E] plain) <> Return "from B".
Proof.
  split; [discriminate|]. split; [reflexivity|]. split; [reflexivity|].
  discriminate.
Qed.

Lemma send_first_served_witness :
  rev (_handlers (director [A; B; C])) = [C] ++ B :: [A]
  /\ (returned (send' [A; B; C] plain) = Return "from B"
      /\ first_served (merged plain) (rev [A; B; C]) = Some "from B"
      /\ calls (events_of (send' [A; B; C] plain)) =
           flat_map (body_calls (merged plain)) ([C] ++ [B])
      /\ exists before,
           events_of (send' [A; B; C] plain) = before ++ [called_handle B]).
Proof.
  split; [reflexivity|].
  apply (send_first_served Request string (fun r => r) "" (director [A; B; C])
           plain [C] [A] B "from B"); reflexivity.
Defined.

Lemma send_request_error_is_final_witness :
  In (called_handle E) (events_of (send' [B; E] plain))
  /\ (returned (send' [B; E] plain) = Raise (RequestError "boom")
      /\ can_handle E (merged plain) = Return tt
      /\ exists before,
           events_of (send' [B; E] plain) = before ++ [called_handle E]).
Proof.
  assert (Hin : In (called_handle E) (events_of (send' [B; E] plain))).
  { simpl. right. right. left. reflexivity. }
  split; [exact Hin|].
  exact (send_request_error_is_final Request string (fun r => r) ""
           (director [B; E]) plain E "boom" Hin eq_refl).
Defined.

(** C3 as stated fails: [handle] of [K] raises something that is not a
    [RequestError]; [send] raises it, reports nothing, and does not try
    [B]. *)
Lemma send_unexpected_fault_counterexample :
  can_handle K (merged plain) = Return tt
  /\ handle K (merged plain) = Raise (NonException "KeyboardInterrupt" "")
  /\ returned (send' [B; K] plain) = Raise (NonException "KeyboardInterrupt" "")
  /\ events_of (send' [B; K] plain) =
       [to_debugtraffic (forwarding_message K);
        called_can_handle K;
        called_handle K]
  /\ ~ In (called_can_handle B) (events_of (send' [B; K] plain)).
Proof.
  split; [reflexivity|]. split; [reflexivity|]. split; [reflexivity|].
  split; [reflexivity|].
  simpl. intros [H|[H|[H|[]]]]; discriminate.
Qed.

Lemma send_unexpected_fault_continues_witness :
  rev (_handlers (director [B; F])) = [] ++ F :: [B]
  /\ returned (send' [B; F] plain) = Return "from B"
  /\ In (report_error
           (unexpected_message "" F (OtherException "ValueError" "bad")) false)
        (events_of (send' [B; F] plain))
  /\ (forall h' rest,
        [B] = h' :: rest ->
        In (called_can_handle h') (events_of (send' [B; F] plain))).
Proof.
  split; [reflexivity|].
  destruct (send_unexpected_fault_continues Request string (fun r => r) ""
              (director [B; F]) plain [] [B] F "ValueError" "bad"
              eq_refl eq_refl eq_refl eq_refl)
    as (Hsend & Hreport & Hnext & _).
  split; [reflexivity|]. split; [exact Hreport|exact Hnext].
Defined.

Lemma send_unsupported_from_handle_witness :
  rev (_handlers (director [B; L])) = [] ++ L :: [B]
  /\ returned (send' [B; L] plain) = Return "from B"
  /\ (forall h' rest,
        [B] = h' :: rest ->
        In (called_can_handle h') (events_of (send' [B; L] plain)))
  /\ returned (send' [B; declining 8 "L" "late"] plain) =
     returned (send' [B; L] plain).
Proof.
  split; [reflexivity|].
  destruct (send_unsupported_from_handle Request string (fun r => r) ""
              (director [B; L]) plain [] [B] L
              {| msg := "late"; handler_RH_NAME := "L" |}
              eq_refl eq_refl eq_refl eq_refl)
    as (Hsend & Hnext & _ & Hsame).
  split; [reflexivity|]. split; [exact Hnext|].
  exact (Hsame (director [B; declining 8 "L" "late"]) (declining 8 "L" "late")
           eq_refl eq_refl eq_refl).
Defined.

Lemma send_exhausted_witness :
  _handlers (director [A; F; C; D]) <> []
  /\ returned (send' [A; F; C; D] plain) =
     Raise (RequestError
       "Unable to handle request, possible reason(s): other (D), no (C, A), 1 unexpected error(s)")
  /\ NoDup
       (map fst (grouped (flat_map (declination (merged plain)) (rev [A; F; C; D]))))
  /\ (forall reason names,
        In (reason, names)
          (grouped (flat_map (declination (merged plain)) (rev [A; F; C; D]))) ->
        names =
        map RH_NAME (filter (declines_with (merged plain) reason) (rev [A; F; C; D]))).
Proof.
  assert (Hne : _handlers (director [A; F; C; D]) <> []) by discriminate.
  assert (Href : forall (h : handler) (e : unsupported),
             In h (rev (_handlers (director [A; F; C; D]))) ->
             attempt (merged plain) h = Raise (UnsupportedRequest e) ->
             handler_RH_NAME e = RH_NAME h).
  { intros h e Hin Hatt. simpl in Hin.
    destruct Hin as [<-|[<-|[<-|[<-|[]]]]]; vm_compute in Hatt;
      inversion Hatt; reflexivity. }
  split; [exact Hne|].
  destruct (send_exhausted Request string (fun r => r) ""
              (director [A; F; C; D]) plain Hne eq_refl Href)
    as (Hmsg & Hnodup & _ & Hnames).
  split; [exact Hmsg|]. split; [exact Hnodup|exact Hnames].
Defined.

(** C7 as stated fails: the request's timeout is set (to zero), and the
    merged timeout is the default of the host. *)
Lemma merge_ydl_fields_counterexample :
  timeout zero_timeout = Some (0 # 1)%Q
  /\ timeout (merged zero_timeout) = Some (20 # 1)%Q
  /\ timeout (merged zero_timeout) <> timeout zero_timeout.
Proof.
  split; [reflexivity|]. split; [reflexivity|]. discriminate.
Qed.

(** The merge on the sample request: the request's own header wins over the
    default that differs in case only, the other default is added, and the
    unset timeout and proxies are taken from the host. *)
Example merged_plain :
  merged plain =
  {| url := "http://x"; method := None;
     headers := [("user-agent", "mine"); ("accept", "*/*")];
     data := None;
     timeout := Some (20 # 1)%Q;
     proxies := Some [("http", "http://proxy:3128")] |}.
Proof. reflexivity. Qed.

(** C6 on the code: after [send], the request object of the caller holds the
    merged headers, timeout and proxies, not the ones it was given. *)
Theorem send_overwrites_request :
  timeout plain = None
  /\ request_after (send' [B] plain) = merged plain
  /\ timeout (request_after (send' [B] plain)) = Some (20 # 1)%Q
  /\ request_after (send' [B] plain) <> plain.
Proof.
  split; [reflexivity|]. split; [reflexivity|]. split; [reflexivity|].
  discriminate.
Qed.

(** ** Further statements on the sample objects *)

Import MoreSamples.

Lemma remove_handler_add_handler_witness :
  ~ In (rh_id C) (ids registered)
  /\ remove_handler (add_handler registered C) (an_instance C) = registered.
Proof.
  assert (Hnin : ~ In (rh_id C) (ids registered)).
  { simpl. intros [H|[H|[]]]; discriminate. }
  split; [exact Hnin|].
  exact (remove_handler_add_handler Request string registered C Hnin).
Defined.

Lemma get_handlers_after_add_handler_witness :
  reachable registered
  /\ exists g,
       get_handlers (add_handler registered A) (an_instance A) = [g]
       /\ rh_id g = rh_id A.
Proof.
  assert (Hreach : reachable registered).
  { unfold registered. apply reach_add. apply reach_add. apply reach_init. }
  split; [exact Hreach|].
  exact (get_handlers_after_add_handler Request string registered A Hreach).
Defined.

Lemma send_raises_only_witness :
  returned (send' [B; E] plain) = Raise (RequestError "boom")
  /\ ((exists m, RequestError "boom" = RequestError m)
      \/ (exists n t, RequestError "boom" = NonException n t)).
Proof.
  split; [reflexivity|].
  exact (send_raises_only Request string (fun r => r) "" (director [B; E])
           plain (RequestError "boom") eq_refl).
Defined.

Lemma send_outcome_from_handler_witness :
  returned (send' [A; B; C] plain) = Return "from B"
  /\ exists h,
       In h (_handlers (director [A; B; C]))
       /\ attempt (merged plain) h = Return "from B"
       /\ (forall r, Return "from B" = Return r ->
             can_handle h (merged plain) = Return tt
             /\ handle h (merged plain) = Return r).
Proof.
  split; [reflexivity|].
  apply (send_outcome_from_handler Request string (fun r => r) ""
           (director [A; B; C]) plain (Return "from B")).
  - intros m H. discriminate.
  - reflexivity.
Defined.

Lemma send_calls_registered_accepting_witness :
  In (called_handle B) (events_of (send' [A; B; C] plain))
  /\ In B (_handlers (director [A; B; C]))
  /\ can_handle B (merged plain) = Return tt.
Proof.
  assert (Hin : In (called_handle B) (events_of (send' [A; B; C] plain))).
  { simpl. do 5 right. left. reflexivity. }
  split; [exact Hin|].
  destruct (send_calls_registered_accepting Request string (fun r => r) ""
              (director [A; B; C]) plain B (or_introl Hin)) as [Hreg Hcan].
  split; [exact Hreg|exact (Hcan Hin)].
Defined.

Lemma send_decided_by_first_witness :
  rev (_handlers (director [B; E; C])) = [C] ++ E :: [B]
  /\ returned (send' [B; E; C] plain) = Raise (RequestError "boom")
  /\ calls (events_of (send' [B; E; C] plain)) =
       flat_map (body_calls (merged plain)) ([C] ++ [E]).
Proof.
  split; [reflexivity|].
  destruct (send_decided_by_first Request string (fun r => r) ""
              (director [B; E; C]) plain [C] [B] E eq_refl eq_refl eq_refl)
    as (Hret & Hcalls & _).
  split; [exact Hret|exact Hcalls].
Defined.

Lemma send_declined_by_can_handle_witness :
  rev (_handlers (director [B; A])) = [] ++ A :: [B]
  /\ returned (send' [B; A] plain) = Return "from B"
  /\ events_of (send' [B; A] plain) =
       [to_debugtraffic (forwarding_message A);
        called_can_handle A;
        to_debugtraffic
          (cannot_handle_message A
             (UnsupportedRequest {| msg := "no"; handler_RH_NAME := "A" |}));
        to_debugtraffic (forwarding_message B);
        called_can_handle B;
        called_handle B].
Proof.
  split; [reflexivity|]. unfold send'.
  rewrite (send_declined_by_can_handle Request string (fun r => r) ""
             (director [B; A]) plain [] [B] A
             {| msg := "no"; handler_RH_NAME := "A" |}
             eq_refl eq_refl eq_refl).
  split; reflexivity.
Defined.

Lemma send_can_handle_fault_witness :
  rev (_handlers (director [B; G])) = [] ++ G :: [B]
  /\ returned (send' [B; G] plain) = Return "from B"
  /\ events_of (send' [B; G] plain) =
       [to_debugtraffic (forwarding_message G);
        called_can_handle G;
        report_error
          (unexpected_message "" G (OtherException "TypeError" "oops")) false;
        to_debugtraffic (forwarding_message B);
        called_can_handle B;
        called_handle B].
Proof.
  split; [reflexivity|]. unfold send'.
  rewrite (send_can_handle_fault Request string (fun r => r) ""
             (director [B; G]) plain [] [B] G "TypeError" "oops"
             eq_refl eq_refl eq_refl).
  split; reflexivity.
Defined.

Lemma send_after_replace_handler_witness :
  _handlers (director [B; E; C]) = [B; E; C]
  /\ returned (send (fun r => r) "" (replace_handler (director [B; E; C]) B)
                 plain) = Return "from B"
  /\ events_of (send (fun r => r) "" (replace_handler (director [B; E; C]) B)
                  plain) =
       [to_debugtraffic (forwarding_message B);
        called_can_handle B;
        called_handle B].
Proof.
  split; [reflexivity|].
  exact (send_after_replace_handler Request string (fun r => r) ""
           (director [B; E; C]) plain B "from B" eq_refl eq_refl).
Defined.

Lemma send_after_add_handler_witness :
  ~ In (rh_id B) (ids (director [A; E]))
  /\ returned (send (fun r => r) "" (add_handler (director [A; E]) B) plain) =
     Return "from B".
Proof.
  assert (Hnin : ~ In (rh_id B) (ids (director [A; E]))).
  { simpl. intros [H|[H|[]]]; discriminate. }
  split; [exact Hnin|].
  exact (proj1 (send_after_add_handler Request string (fun r => r) ""
                  (director [A; E]) plain B "from B" Hnin eq_refl eq_refl)).
Defined.

Lemma send_one_reason_witness :
  _handlers (director [A; C]) <> []
  /\ returned (send' [A; C] plain) =
     Raise (RequestError
       "Unable to handle request, possible reason(s): no (C, A)").
Proof.
  assert (Hne : _handlers (director [A; C]) <> []) by discriminate.
  split; [exact Hne|].
  apply (send_one_reason Request string (fun r => r) "" (director [A; C])
           plain "no" Hne).
  intros h Hin. simpl in Hin.
  destruct Hin as [<-|[<-|[]]]; eexists; split; reflexivity.
Defined.

Lemma send_request_after_witness :
  _handlers (director [A]) <> []
  /\ request_after (send' [A] plain) = merged plain.
Proof.
  assert (Hne : _handlers (director [A]) <> []) by discriminate.
  split; [exact Hne|].
  exact (send_request_after Request string (fun r => r) "" (director [A])
           plain Hne).
Defined.

Lemma close_closes_all_witness :
  (forall h, In h (_handlers (director [A; B; C])) -> never_failing h = Return tt)
  /\ close never_failing (director [A; B; C]) = (Return tt, [A; B; C]).
Proof.
  assert (Hall : forall h, In h (_handlers (director [A; B; C])) ->
                           never_failing h = Return tt).
  { intros h _. reflexivity. }
  split; [exact Hall|].
  exact (close_closes_all Request string never_failing (director [A; B; C]) Hall).
Defined.

Lemma close_stops_at_failure_witness :
  _handlers (director [A; B; C; D]) = [A; B] ++ C :: [D]
  /\ close closing (director [A; B; C; D]) =
     (Raise (OtherException "OSError" "closed"), [A; B] ++ [C]).
Proof.
  split; [reflexivity|].
  apply (close_stops_at_failure Request string closing
           (director [A; B; C; D]) [A; B] [D] C
           (OtherException "OSError" "closed")).
  - reflexivity.
  - intros g Hg. simpl in Hg. destruct Hg as [<-|[<-|[]]]; reflexivity.
  - reflexivity.
Defined.

Lemma list_request_handler_classes_sorted_witness :
  Catalog.list_request_handler_classes module_globals =
    Catalog.Ok [Curl; Requests; Urllib]
  /\ Permutation (Catalog.candidates module_globals) [Curl; Requests; Urllib]
  /\ Sorted
       (fun a b => String.leb (Catalog.key_of a) (Catalog.key_of b) = true)
       [Curl; Requests; Urllib].
Proof.
  split; [reflexivity|].
  destruct (list_request_handler_classes_sorted module_globals
              [Curl; Requests; Urllib] eq_refl) as (Hperm & Hsorted & _).
  split; [exact Hperm|exact Hsorted].
Defined.

Lemma get_request_handler_listed_witness :
  Catalog.get_request_handler module_globals "Urllib" = Catalog.Ok Urllib
  /\ In Urllib [Curl; Requests; Urllib].
Proof.
  split; [reflexivity|].
  exact (get_request_handler_listed module_globals "Urllib" Urllib
           [Curl; Requests; Urllib] eq_refl eq_refl).
Defined.

Lemma listed_get_request_handler_witness :
  NoDup (PyDict.keys module_globals)
  /\ (forall rh, In rh [Curl; Requests; Urllib] ->
        exists key, Catalog.get_request_handler module_globals key = Catalog.Ok rh)
  /\ Catalog.get_request_handler module_globals "Request" =
     Catalog.Err (Catalog.KeyError "RequestRH").
Proof.
  assert (Hnd : NoDup (PyDict.keys module_globals)).
  { simpl. repeat constructor; simpl; intuition discriminate. }
  split; [exact Hnd|].
  destruct (listed_get_request_handler module_globals
              [Curl; Requests; Urllib] Hnd eq_refl) as [Hget Hmiss].
  split; [exact Hget|].
  apply (Hmiss "Request"). simpl. intuition discriminate.
Defined.

(** A module in which a name ending with [RH] is bound to an object without
    [RH_NAME]: listing fails. *)
Example list_request_handler_classes_fails :
  Catalog.list_request_handler_classes (("BrokenRH", other) :: module_globals) =
  Catalog.Err (Catalog.AttributeError "RH_NAME").
Proof. reflexivity. Qed.
